(** * vectori-c: a type-erased vector with an internal iterator

    Shallow embedding of [vectori.h] and the properties of its
    memory-management contract.

    Conventions of the embedding.
    - [size_t] is the 64-bit unsigned type; a value of that type is a [Z]
      in [0, 2^64) and every arithmetic operator of the source is written
      with its wrap-around ([size_add], [size_sub], [size_mul], [size_shl]).
    - [int32_t typeSize] is a [Z] in [-2^31, 2^31); where the source mixes it
      with a [size_t] operand the usual arithmetic conversions turn it into
      a [size_t] first ([to_size]).
    - The [data] pointer is [None] for [NULL] and [Some b] for a pointer to
      a heap block whose bytes are [b]; the vector owns that block.
    - The C library allocator is a capability: each call that may allocate
      takes the allocator's answer as an argument.
    - [memmove]/[memcpy] are checked against the bounds of the block.  A call
      that leaves the block (or goes through [NULL]) is undefined behaviour
      in C; the embedding records it in the [in_bounds] flag of the outcome
      and keeps the fields the straight-line code stores. *)

From Stdlib Require Import ZArith List Bool Lia.
From Stdlib.Strings Require Import Byte.
Import ListNotations.
Local Open Scope Z_scope.

(** ** Machine integers *)

Module Size.

Definition SIZE_BITS : Z := 64.
Definition MODULUS : Z := 2 ^ SIZE_BITS.
Definition SIZE_MAX : Z := MODULUS - 1.

Definition INT32_MIN : Z := - 2 ^ 31.
Definition INT32_MAX : Z := 2 ^ 31 - 1.

Definition wrap (x : Z) : Z := x mod MODULUS.

(** conversion of a signed operand to [size_t] *)
Definition to_size (x : Z) : Z := wrap x.

Definition size_add (a b : Z) : Z := wrap (a + b).
Definition size_sub (a b : Z) : Z := wrap (a - b).
Definition size_mul (a b : Z) : Z := wrap (a * b).
Definition size_shl (a n : Z) : Z := wrap (Z.shiftl a n).

(** unsigned division; [None] is the division by zero *)
Definition size_div (a b : Z) : option Z :=
  if b =? 0 then None else Some (a / b).

Definition is_size (x : Z) : Prop := 0 <= x < MODULUS.
Definition is_int32 (x : Z) : Prop := INT32_MIN <= x <= INT32_MAX.

End Size.
Export Size.

(** ** Heap blocks *)

Module Mem.

Abbreviation block := (list byte).

Definition blen (b : block) : Z := Z.of_nat (List.length b).

Definition take (n : Z) (b : block) : block := firstn (Z.to_nat n) b.
Definition drop (n : Z) (b : block) : block := skipn (Z.to_nat n) b.

(** bytes [off, off+n) of a block *)
Definition load (b : block) (off n : Z) : option (list byte) :=
  if (0 <=? off) && (0 <=? n) && (off + n <=? blen b)
  then Some (take n (drop off b)) else None.

(** overwrite bytes [off, off+n) of a block with [bs] *)
Definition store (b : block) (off : Z) (bs : list byte) : option block :=
  if (0 <=? off) && (off + blen bs <=? blen b)
  then Some (take off b ++ bs ++ drop (off + blen bs) b) else None.

(** [memcpy(p + dst, src, n)] where [p] points to block [b] and [src] to
    an object holding the bytes [src] *)
Definition memcpy (b : block) (dst : Z) (src : list byte) (n : Z) : option block :=
  if n <=? blen src then store b dst (take n src) else None.

(** [memmove(p + dst, p + src, n)] inside one block *)
Definition memmove (b : block) (dst src n : Z) : option block :=
  match load b src n with
  | Some bs => store b dst bs
  | None => None
  end.

(** [calloc(nmemb, size)]: [ok] is the allocator's answer; the product is
    checked for overflow by the library *)
Definition calloc (ok : bool) (nmemb size : Z) : option block :=
  if ok && (nmemb * size <=? SIZE_MAX)
  then Some (repeat x00 (Z.to_nat (nmemb * size))) else None.

(** The allocator's answer to a [realloc]: failure, or success together
    with the indeterminate contents of the bytes it adds. *)
Definition answer := option (nat -> byte).

(** [realloc(p, n)]: the old contents up to the smaller of the two sizes,
    then fresh bytes.  A [NULL] result keeps the old block. *)
Definition realloc (a : answer) (p : option block) (n : Z) : option block :=
  match a with
  | None => None
  | Some junk =>
      let old := match p with Some b => b | None => [] end in
      let kept := take n old in
      Some (kept ++ map junk (seq (List.length kept) (Z.to_nat n - List.length kept)))
  end.

End Mem.

(** ** The vector *)

Definition VECTOR_DEFAULT_LENGTH : Z := 32.

Record vector := mkvector {
  typeSize : Z;               (* int32_t: byte size of one element *)
  length : Z;                 (* size_t: allocated size, in bytes *)
  iterator : Z;               (* size_t: live size, in bytes *)
  data : option Mem.block     (* void*: the buffer, None is NULL *)
}.

Definition VECTOR_MIN (X Y : Z) : Z := if X <? Y then X else Y.
Definition VECTOR_MAX (X Y : Z) : Z := if X >? Y then X else Y.

Definition bool_to_Z (b : bool) : Z := if b then 1 else 0.

(** Outcome of an operation that touches the buffer. *)
Record outcome (A : Type) := mkoutcome {
  ret : A;
  vec : vector;
  in_bounds : bool
}.
Arguments mkoutcome {A} _ _ _.
Arguments ret {A} _.
Arguments vec {A} _.
Arguments in_bounds {A} _.

Definition set_data (v : vector) (d : option Mem.block) : vector :=
  mkvector (typeSize v) (length v) (iterator v) d.
Definition set_length (v : vector) (l : Z) : vector :=
  mkvector (typeSize v) l (iterator v) (data v).
Definition set_iterator (v : vector) (i : Z) : vector :=
  mkvector (typeSize v) (length v) i (data v).

(** [vector_calloc(typeSize, reserve)] *)
Definition vector_calloc (ok : bool) (typeSize : Z) (reserve : bool) : vector :=
  let len := to_size (bool_to_Z reserve * VECTOR_DEFAULT_LENGTH) in
  mkvector typeSize (size_mul len (to_size typeSize)) 0
    (if reserve then Mem.calloc ok len (to_size typeSize) else None).

(** [vector_calloc2(typeSize, length, reserve)] *)
Definition vector_calloc2 (ok : bool) (typeSize : Z) (length : Z) (reserve : bool) : vector :=
  let len := to_size ((if reserve then 1 else 0) * length) in
  mkvector typeSize (size_mul len (to_size typeSize)) 0
    (if reserve then Mem.calloc ok len (to_size typeSize) else None).

(** [vector_free(vector)]; the argument is the pointer to the vector, so
    [None] is a [NULL] argument. *)
Definition vector_free (p : option vector) : bool * option vector :=
  match p with
  | None => (false, p)
  | Some v =>
      match data v with
      | None => (false, p)
      | Some _ => (true, Some (set_data v None))
      end
  end.

(** [vector_realloc(vector, length)] *)
Definition vector_realloc (a : Mem.answer) (v : vector) (length : Z) : bool * vector :=
  match Mem.realloc a (data v) (size_mul length (to_size (typeSize v))) with
  | Some d =>
      (true, set_length (set_data v (Some d)) (size_mul length (to_size (typeSize v))))
  | None => (false, v)
  end.

(** [&vector->data]: the address of the [data] field of the vector the
    argument points to.  The functions below take the pointee, so that
    address is never [NULL]. *)
Definition addr_of_data_is_null (v : vector) : bool := false.

(** [vector_isalloc(vector)]: [&vector->data != NULL] *)
Definition vector_isalloc (v : vector) : bool := negb (addr_of_data_is_null v).

Definition vector_bytesize (v : vector) : Z := length v.

Definition vector_maxsize (v : vector) : option Z :=
  size_div (length v) (to_size (typeSize v)).

Definition vector_typesize (v : vector) : Z := to_size (typeSize v).

Definition vector_length (v : vector) : option Z :=
  size_div (length v) (to_size (typeSize v)).

Definition vector_count (v : vector) : option Z :=
  size_div (iterator v) (to_size (typeSize v)).

(** Run a memory operation on the buffer.  When the operation leaves the
    block, or the buffer is [NULL], the flag drops and the block is kept. *)
Definition on_buffer (f : Mem.block -> option Mem.block) (v : vector) (ok : bool)
  : vector * bool :=
  match data v with
  | Some b =>
      match f b with
      | Some b' => (set_data v (Some b'), ok)
      | None => (v, false)
      end
  | None => (v, false)
  end.

(** [vector_move(vector, iterator)] *)
Definition vector_move (v : vector) (iterator : Z) : bool * vector :=
  if addr_of_data_is_null v
     || (size_mul iterator (to_size (typeSize v)) <? 0)
     || (size_mul iterator (to_size (typeSize v)) >? length v)
  then (false, v)
  else (true, set_iterator v (size_mul iterator (to_size (typeSize v)))).

(** The loop of [vector_clear]: [for (i = 0; i < length; i += typeSize)].
    With [typeSize = 0] the source does not leave the loop, so the loop is
    run on fuel and [None] is the loop still running. *)
Fixpoint clear_loop (fuel : nat) (v : vector) (src : list byte) (i : Z) (ok : bool)
  : option (vector * bool) :=
  match fuel with
  | O => None
  | S fuel' =>
      if i <? length v then
        let '(v', ok') :=
          on_buffer (fun b => Mem.memcpy b i src (to_size (typeSize v))) v ok in
        clear_loop fuel' v' src (size_add i (to_size (typeSize v))) ok'
      else Some (v, ok)
  end.

(** [vector_clear(vector, data)] *)
Definition vector_clear (fuel : nat) (v : vector) (src : list byte)
  : option (outcome bool) :=
  if addr_of_data_is_null v || (length v <=? 0)
  then Some (mkoutcome false v true)
  else
    match clear_loop fuel v src 0 true with
    | Some (v', ok) => Some (mkoutcome true (set_iterator v' 0) ok)
    | None => None
    end.

(** [vector_insert(vector, data, index)] *)
Definition vector_insert (a : Mem.answer) (v : vector) (src : list byte) (index : Z)
  : outcome bool :=
  let byteIndex := size_mul index (to_size (typeSize v)) in
  let v1 :=
    if iterator v =? length v
    then snd (vector_realloc a v (size_shl (length v) 1))
    else v in
  if addr_of_data_is_null v1 || (byteIndex <? 0) || (byteIndex >? iterator v1)
  then mkoutcome false v1 true
  else
    let '(v2, ok2) :=
      on_buffer (fun b => Mem.memmove b (size_add byteIndex (to_size (typeSize v1)))
                                      byteIndex (size_sub (iterator v1) byteIndex))
                v1 true in
    let '(v3, ok3) :=
      on_buffer (fun b => Mem.memcpy b byteIndex src (to_size (typeSize v2))) v2 ok2 in
    mkoutcome true
      (set_iterator v3 (size_add (iterator v3) (to_size (typeSize v3)))) ok3.

(** The vector the bound check of [vector_insert] sees: the first
    statement of the function, named for the proofs. *)
Definition grown (a : Mem.answer) (v : vector) : vector :=
  if iterator v =? length v
  then snd (vector_realloc a v (size_shl (length v) 1))
  else v.

(** [vector_replace(vector, data, index)] *)
Definition vector_replace (v : vector) (src : list byte) (index : Z) : outcome bool :=
  let byteIndex := size_mul index (to_size (typeSize v)) in
  if addr_of_data_is_null v || (byteIndex <? 0) || (byteIndex >=? iterator v)
  then mkoutcome false v true
  else
    let '(v1, ok1) :=
      on_buffer (fun b => Mem.memcpy b byteIndex src (to_size (typeSize v))) v true in
    mkoutcome true v1 ok1.

(** [vector_replace_unsafe(vector, data, index, byteCount)] *)
Definition vector_replace_unsafe (v : vector) (src : list byte) (index byteCount : Z)
  : outcome bool :=
  let byteIndex := size_mul index (to_size (typeSize v)) in
  if addr_of_data_is_null v || (byteIndex <? 0) || (byteIndex >=? iterator v)
  then mkoutcome false v true
  else
    let '(v1, ok1) :=
      on_buffer (fun b => Mem.memcpy b byteIndex src byteCount) v true in
    mkoutcome true v1 ok1.

Definition is_null {A : Type} (p : option A) : bool :=
  match p with None => true | Some _ => false end.

(** [vector_remove(vector, index)].  The source of the move is
    [data + byteIndex + typeSize]: pointer arithmetic, so [typeSize] is
    added as the signed value it is. *)
Definition vector_remove (v : vector) (index : Z) : outcome bool :=
  let byteIndex := size_mul index (to_size (typeSize v)) in
  if is_null (data v) || (byteIndex <? 0) || (byteIndex >? iterator v)
  then mkoutcome false v true
  else
    let v1 :=
      set_iterator v
        (size_sub (iterator v)
                  (to_size (if iterator v >? 0 then typeSize v else 0))) in
    let '(v2, ok2) :=
      on_buffer (fun b => Mem.memmove b byteIndex (byteIndex + typeSize v1)
                                      (size_sub (iterator v1) byteIndex))
                v1 true in
    mkoutcome true v2 ok2.

(** [vector_get(vector, index)].  The result [Some off] is the pointer
    [data + off], [None] is [NULL].  With [data == NULL] the sum has the
    address [off], which is [NULL] exactly when [off] is zero. *)
Definition vector_get (v : vector) (index : Z) : option Z :=
  let byteIndex := size_mul index (to_size (typeSize v)) in
  if addr_of_data_is_null v || (byteIndex <? 0) || (byteIndex >? iterator v)
  then None
  else
    match data v with
    | Some _ => Some byteIndex
    | None => if byteIndex =? 0 then None else Some byteIndex
    end.

(** Reading [n] bytes through a pointer returned by [vector_get]. *)
Definition read_at (v : vector) (off n : Z) : option (list byte) :=
  match data v with
  | Some b => Mem.load b off n
  | None => None
  end.

(** [memmove(string, vector->data, n)]: a copy between two objects *)
Definition copy_from (dst src : option Mem.block) (n : Z) : option Mem.block * bool :=
  match dst, src with
  | Some d, Some s =>
      match Mem.memcpy d 0 s n with
      | Some d' => (Some d', true)
      | None => (dst, false)
      end
  | _, _ => (dst, false)
  end.

Record made_string := mkstring {
  str : option Mem.block;     (* the returned char*, None is NULL *)
  out_len : option Z;         (* the object outLen points to, afterwards *)
  str_in_bounds : bool
}.

(** [vector_makestr(vector, first, last, outLen)]: [outLen] is [None] for a
    [NULL] pointer and [Some x] for a pointer to a [size_t] holding [x];
    [ok] is the allocator's answer to the [calloc]. *)
Definition vector_makestr (ok : bool) (v : vector) (first last : Z) (outLen : option Z)
  : made_string :=
  match outLen with
  | Some _ =>
      let outLen' := VECTOR_MIN 0 (VECTOR_MAX (size_sub last first) last) in
      let string := Mem.calloc ok (size_add outLen' 1) 1 in
      let '(string', fl) := copy_from string (data v) outLen' in
      mkstring string' (Some outLen') fl
  | None =>
      let length := VECTOR_MIN 0 (VECTOR_MAX (size_sub last first) last) in
      let string := Mem.calloc ok (size_add length 1) 1 in
      let '(string', fl) := copy_from string (data v) length in
      mkstring string' None fl
  end.

(** ** Representation invariants *)

(** The fields hold values of their C types and the block is an object a
    [size_t] can measure. *)
Definition vector_ok (v : vector) : Prop :=
  is_int32 (typeSize v) /\ is_size (length v) /\ is_size (iterator v) /\
  match data v with
  | Some b => Mem.blen b <= SIZE_MAX
  | None => True
  end.

(** I1-I3 of the data model, on the byte fields. *)
Definition Inv (v : vector) : Prop :=
  0 < typeSize v <= INT32_MAX /\
  is_size (length v) /\ is_size (iterator v) /\
  length v mod typeSize v = 0 /\ iterator v mod typeSize v = 0 /\
  iterator v <= length v.

(** ** Operations as data, for sequences of calls *)

Inductive op : Type :=
| OpRealloc (a : Mem.answer) (n : Z)
| OpMove (it : Z)
| OpClear (fuel : nat) (src : list byte)
| OpInsert (a : Mem.answer) (src : list byte) (index : Z)
| OpReplace (src : list byte) (index : Z)
| OpReplaceUnsafe (src : list byte) (index byteCount : Z)
| OpRemove (index : Z)
| OpGet (index : Z)
| OpFree.

(** One call.  The result is the success report of the call (for
    [vector_get], a non-[NULL] pointer), the vector afterwards and the
    bounds flag; [None] is a [vector_clear] whose loop is still running. *)
Definition step (v : vector) (o : op) : option (outcome bool) :=
  match o with
  | OpRealloc a n =>
      let r := vector_realloc a v n in Some (mkoutcome (fst r) (snd r) true)
  | OpMove it =>
      let r := vector_move v it in Some (mkoutcome (fst r) (snd r) true)
  | OpClear fuel src => vector_clear fuel v src
  | OpInsert a src index => Some (vector_insert a v src index)
  | OpReplace src index => Some (vector_replace v src index)
  | OpReplaceUnsafe src index n => Some (vector_replace_unsafe v src index n)
  | OpRemove index => Some (vector_remove v index)
  | OpGet index => Some (mkoutcome (negb (is_null (vector_get v index))) v true)
  | OpFree =>
      match vector_free (Some v) with
      | (r, Some v') => Some (mkoutcome r v' true)
      | (r, None) => Some (mkoutcome r v true)
      end
  end.

(** The calls the capacity invariant is stated for: no shrinking below the
    live length, no index arithmetic that wraps, and an insert either finds
    room or grows a buffer of at least one element. *)
Definition benign (v : vector) (o : op) : Prop :=
  match o with
  | OpRealloc (Some _) n => 0 <= n /\ iterator v <= n * typeSize v <= SIZE_MAX
  | OpMove it => 0 <= it /\ it * typeSize v <= SIZE_MAX
  | OpInsert a _ _ =>
      iterator v < length v \/
      (a <> None /\ 0 < length v /\ 2 * length v * typeSize v <= SIZE_MAX)
  | _ => True
  end.

(** P1 of the specification: the count does not exceed the capacity. *)
Definition capacity_invariant (v : vector) : Prop :=
  exists c k : Z, vector_count v = Some c /\ vector_maxsize v = Some k /\ c <= k.

(** A sequence of calls on a vector; the outcome is that of the last call,
    the construction standing for the first one. *)
Definition constructed (v : vector) : outcome bool := mkoutcome true v true.

Fixpoint run (r : outcome bool) (ops : list op) : option (outcome bool) :=
  match ops with
  | [] => Some r
  | o :: rest =>
      match step (vec r) o with
      | Some r' => run r' rest
      | None => None
      end
  end.

Fixpoint all_benign (v : vector) (ops : list op) : Prop :=
  match ops with
  | [] => True
  | o :: rest =>
      benign v o /\
      match step v o with
      | Some r => all_benign (vec r) rest
      | None => True
      end
  end.

(** The copy length of [vector_makestr] in the words of the specification:
    the minimum of zero and the maximum of [last - first] and [last], over
    [size_t]. *)
Definition makestr_length_spec (first last : Z) : Z :=
  Z.min 0 (Z.max (size_sub last first) last).

Definition buffer_bytes (v : vector) : list byte :=
  match data v with Some b => b | None => [] end.

(** ** The string copy *)



(** ** Well-formed vectors and safe calls *)

(** I1-I4 together: the invariant on the byte fields, and a buffer of
    exactly [length] bytes. *)
Definition WF (v : vector) : Prop :=
  Inv v /\ exists b : Mem.block, data v = Some b /\ Mem.blen b = length v.

(** [n] copies of an element, one after the other. *)
Definition slots (n : nat) (elt : list byte) : list byte := concat (repeat elt n).

(** Calls that respect the contract a caller can check: sizes that do not
    wrap, a source object of at least the bytes that are read from it, no
    shrinking below the live length, an insert that finds room or grows a
    non-empty buffer, no removal at the index equal to a positive count,
    and no release. *)
Definition safe (v : vector) (o : op) : Prop :=
  match o with
  | OpRealloc (Some _) n => 0 <= n /\ iterator v <= n * typeSize v <= SIZE_MAX
  | OpRealloc None _ => True
  | OpMove it => 0 <= it /\ it * typeSize v <= SIZE_MAX
  | OpClear _ src => typeSize v <= Mem.blen src
  | OpInsert a src _ =>
      typeSize v <= Mem.blen src /\
      (iterator v < length v \/
       (a <> None /\ 0 < length v /\ 2 * length v * typeSize v <= SIZE_MAX))
  | OpReplace src index =>
      typeSize v <= Mem.blen src /\ 0 <= index /\ index * typeSize v <= SIZE_MAX
  | OpReplaceUnsafe src index n =>
      0 <= n <= Mem.blen src /\
      size_mul index (to_size (typeSize v)) + n <= length v
  | OpRemove index =>
      0 <= index /\ index * typeSize v <= SIZE_MAX /\
      (index * typeSize v <> iterator v \/ (iterator v = 0 /\ 0 < length v))
  | OpGet _ => True
  | OpFree => False
  end.



(** ** Test data: the scenarios of the specification *)

Module Scenario.

Definition le32 (b : byte) : list byte := [b; x00; x00; x00].
Definition junk : nat -> byte := fun _ => xff.

(** capacity 4, elements of 4 bytes, reserved *)
Definition v0 : vector := vector_calloc2 true 4 4 true.
Definition v1 : vector := vec (vector_insert None v0 (le32 x0a) 0).
Definition v2 : vector := vec (vector_insert None v1 (le32 x14) 1).
Definition v3 : vector := vec (vector_insert None v2 (le32 x1e) 2).
Definition v4 : vector := vec (vector_insert None v3 (le32 x28) 3).

(** a vector of single bytes, capacity 4 *)
Definition b0 : vector := vector_calloc2 true 1 4 true.

(** the same vectors, written out *)
Definition w0 : vector := mkvector 4 16 0 (Some (repeat x00 16)).
Definition w1 : vector := mkvector 4 16 4 (Some (le32 x0a ++ repeat x00 12)).
Definition w2 : vector := mkvector 4 16 8 (Some (le32 x0a ++ le32 x14 ++ repeat x00 8)).
Definition w4 : vector :=
  mkvector 4 16 16 (Some (le32 x0a ++ le32 x14 ++ le32 x1e ++ le32 x28)).

End Scenario.

(** * Properties *)

(** ** Arithmetic of [size_t] *)

Section SizeFacts.

Lemma MODULUS_pos : 0 < MODULUS.
Proof. reflexivity. Qed.

Lemma wrap_range (x : Z) : is_size (wrap x).
Proof. unfold is_size, wrap. apply Z.mod_pos_bound. exact MODULUS_pos. Qed.

Lemma wrap_small (x : Z) : 0 <= x <= SIZE_MAX -> wrap x = x.
Proof. unfold wrap, SIZE_MAX. intros H. apply Z.mod_small. lia. Qed.

Lemma is_size_small (x : Z) : is_size x -> 0 <= x <= SIZE_MAX.
Proof. unfold is_size, SIZE_MAX. lia. Qed.

Lemma to_size_pos (t : Z) : 0 < t <= INT32_MAX -> to_size t = t.
Proof.
  intros H. unfold to_size. apply wrap_small.
  unfold INT32_MAX, SIZE_MAX, MODULUS, SIZE_BITS in *. lia.
Qed.

Lemma size_sub_le (a b : Z) : is_size a -> 0 <= b <= a -> size_sub a b = a - b.
Proof.
  intros Ha Hb. unfold size_sub. apply wrap_small.
  apply is_size_small in Ha. lia.
Qed.

Lemma size_div_pos (a t : Z) : 0 < t -> size_div a t = Some (a / t).
Proof.
  intros H. unfold size_div. destruct (Z.eqb_spec t 0); [lia | reflexivity].
Qed.

(** The macros agree with [Z.min] and [Z.max]. *)
Lemma VECTOR_MIN_min (x y : Z) : VECTOR_MIN x y = Z.min x y.
Proof. unfold VECTOR_MIN. destruct (Z.ltb_spec x y); lia. Qed.

Lemma VECTOR_MAX_max (x y : Z) : VECTOR_MAX x y = Z.max x y.
Proof.
  unfold VECTOR_MAX. rewrite Z.gtb_ltb. destruct (Z.ltb_spec y x); lia.
Qed.

Lemma VECTOR_MIN_zero (x : Z) : 0 <= x -> VECTOR_MIN 0 x = 0.
Proof. intros H. rewrite VECTOR_MIN_min. lia. Qed.

End SizeFacts.

(** ** Blocks *)

Section MemFacts.

Lemma blen_nonneg (b : Mem.block) : 0 <= Mem.blen b.
Proof. unfold Mem.blen. lia. Qed.

Lemma blen_app (b c : Mem.block) : Mem.blen (b ++ c) = Mem.blen b + Mem.blen c.
Proof. unfold Mem.blen. rewrite length_app. lia. Qed.

Lemma blen_take (n : Z) (b : Mem.block) :
  0 <= n <= Mem.blen b -> Mem.blen (Mem.take n b) = n.
Proof.
  unfold Mem.blen, Mem.take. intros H. rewrite length_firstn. lia.
Qed.

Lemma blen_drop (n : Z) (b : Mem.block) :
  0 <= n <= Mem.blen b -> Mem.blen (Mem.drop n b) = Mem.blen b - n.
Proof.
  unfold Mem.blen, Mem.drop. intros H. rewrite length_skipn. lia.
Qed.

Lemma load_blen (b : Mem.block) (off n : Z) (bs : list byte) :
  Mem.load b off n = Some bs -> Mem.blen bs = n /\ 0 <= off /\ 0 <= n /\ off + n <= Mem.blen b.
Proof.
  unfold Mem.load. intros H.
  destruct (Z.leb_spec 0 off); simpl in H; [|discriminate].
  destruct (Z.leb_spec 0 n); simpl in H; [|discriminate].
  destruct (Z.leb_spec (off + n) (Mem.blen b)); simpl in H; [|discriminate].
  inversion H; subst. repeat split; try lia.
  apply blen_take. rewrite blen_drop; lia.
Qed.

Lemma store_bounds (b : Mem.block) (off : Z) (bs : list byte) (b' : Mem.block) :
  Mem.store b off bs = Some b' ->
  0 <= off /\ off + Mem.blen bs <= Mem.blen b /\ Mem.blen b' = Mem.blen b.
Proof.
  unfold Mem.store. intros H.
  destruct (Z.leb_spec 0 off); simpl in H; [|discriminate].
  destruct (Z.leb_spec (off + Mem.blen bs) (Mem.blen b)); simpl in H; [|discriminate].
  inversion H; subst. pose proof (blen_nonneg bs).
  repeat split; try lia.
  rewrite !blen_app, blen_take, blen_drop; lia.
Qed.

(** What was stored is what is loaded back. *)
Lemma load_store (b : Mem.block) (off : Z) (bs : list byte) (b' : Mem.block) :
  Mem.store b off bs = Some b' -> Mem.load b' off (Mem.blen bs) = Some bs.
Proof.
  intros H. destruct (store_bounds _ _ _ _ H) as (Hs0 & Hs1 & Hs2).
  pose proof (blen_nonneg bs) as Hbs.
  unfold Mem.load. rewrite Hs2.
  destruct (Z.leb_spec 0 off); [|lia].
  destruct (Z.leb_spec 0 (Mem.blen bs)); [|lia].
  destruct (Z.leb_spec (off + Mem.blen bs) (Mem.blen b)); [|lia]. simpl.
  f_equal. unfold Mem.store in H.
  destruct ((0 <=? off) && (off + Mem.blen bs <=? Mem.blen b)); [|discriminate].
  inversion H; subst. unfold Mem.take, Mem.drop.
  rewrite skipn_app.
  assert (Hl : List.length (firstn (Z.to_nat off) b) = Z.to_nat off).
  { rewrite length_firstn. unfold Mem.blen in *. lia. }
  rewrite Hl, Nat.sub_diag. simpl.
  rewrite skipn_all2 by lia. simpl.
  rewrite firstn_app.
  replace (Z.to_nat (Mem.blen bs)) with (List.length bs) by (unfold Mem.blen; lia).
  rewrite Nat.sub_diag, firstn_all. simpl. apply app_nil_r.
Qed.

Lemma memcpy_bounds (b : Mem.block) (dst : Z) (src : list byte) (n : Z) (b' : Mem.block) :
  0 <= n -> Mem.memcpy b dst src n = Some b' ->
  0 <= dst /\ dst + n <= Mem.blen b /\ n <= Mem.blen src /\ Mem.blen b' = Mem.blen b /\
  Mem.load b' dst n = Some (Mem.take n src).
Proof.
  unfold Mem.memcpy. intros Hn H.
  destruct (Z.leb_spec n (Mem.blen src)); [|discriminate].
  pose proof (blen_take n src ltac:(lia)) as Ht.
  destruct (store_bounds _ _ _ _ H) as (Hs0 & Hs1 & Hs2).
  apply load_store in H. rewrite Ht in *. auto.
Qed.

Lemma memmove_bounds (b : Mem.block) (dst src n : Z) (b' : Mem.block) :
  Mem.memmove b dst src n = Some b' ->
  0 <= n /\ 0 <= src /\ src + n <= Mem.blen b /\ 0 <= dst /\ dst + n <= Mem.blen b /\
  Mem.blen b' = Mem.blen b.
Proof.
  unfold Mem.memmove. intros H.
  destruct (Mem.load b src n) as [bs|] eqn:E; [|discriminate].
  apply load_blen in E. destruct E as (E1 & E2 & E3 & E4).
  apply store_bounds in H. rewrite E1 in H. lia.
Qed.

Lemma realloc_blen (junk : nat -> byte) (p : option Mem.block) (n : Z) (b : Mem.block) :
  0 <= n -> Mem.realloc (Some junk) p n = Some b -> Mem.blen b = n.
Proof.
  intros Hn H. unfold Mem.realloc in H. inversion H; subst; clear H.
  unfold Mem.blen, Mem.take.
  rewrite length_app, length_map, length_seq, length_firstn. lia.
Qed.

End MemFacts.

(** ** Reallocation and release *)

Lemma size_mul_exact (n t : Z) :
  0 <= n * t <= SIZE_MAX -> size_mul n (to_size t) = n * t.
Proof.
  intros H. unfold size_mul, to_size, wrap.
  rewrite Z.mul_mod_idemp_r by (pose proof MODULUS_pos; lia).
  apply Z.mod_small. unfold SIZE_MAX in H. lia.
Qed.

(** C8: [vector_realloc(vector, n)], when the allocator answers with a
    block, stores that block, sets [length] to [n * typeSize] (the product
    of the source, in [size_t]; it is the exact product whenever that fits),
    leaves [typeSize] and [iterator] as they were whatever their relation to
    the new [length], and returns true; when the allocator fails the vector
    is returned unchanged and the result is false. *)
Theorem vector_realloc_spec (v : vector) (n : Z) :
  (forall junk : nat -> byte,
      exists b : Mem.block,
        vector_realloc (Some junk) v n =
        (true, mkvector (typeSize v) (size_mul n (to_size (typeSize v)))
                        (iterator v) (Some b)))
  /\ (0 <= n * typeSize v <= SIZE_MAX ->
      size_mul n (to_size (typeSize v)) = n * typeSize v)
  /\ vector_realloc None v n = (false, v).
Proof.
  split; [|split].
  - intros junk. unfold vector_realloc, Mem.realloc.
    eexists. unfold set_length, set_data. simpl. reflexivity.
  - apply size_mul_exact.
  - reflexivity.
Qed.

(** C10: [vector_free] on an allocated vector returns true and only sets
    [data] to [NULL]: [typeSize], [length] and [iterator] keep their values,
    so [vector_bytesize], [vector_maxsize] and [vector_count] report what
    they reported before; on a vector whose [data] is [NULL] it returns
    false and changes nothing. *)
Theorem vector_free_frame (ts len it : Z) (b : Mem.block) :
  let v := mkvector ts len it (Some b) in
  let u := mkvector ts len it None in
  vector_free (Some v) = (true, Some u) /\
  vector_bytesize u = vector_bytesize v /\
  vector_maxsize u = vector_maxsize v /\
  vector_count u = vector_count v /\
  vector_free (Some u) = (false, Some u).
Proof.
  intros v u. repeat split.
Qed.

Lemma vector_free_null : vector_free None = (false, None).
Proof. reflexivity. Qed.

(** ** Allocation introspection *)

Lemma vector_isalloc_true (v : vector) : vector_isalloc v = true.
Proof. reflexivity. Qed.

(** C6: [vector_isalloc] tests the address of the [data] field, not the
    field: it answers true on a vector built with [reserve = false], whose
    [data] is [NULL], and on a vector that was just released. *)
Theorem vector_isalloc_unallocated (ok : bool) (ts len it : Z) (b : Mem.block) :
  data (vector_calloc ok ts false) = None /\
  vector_isalloc (vector_calloc ok ts false) = true /\
  vector_free (Some (mkvector ts len it (Some b))) =
    (true, Some (mkvector ts len it None)) /\
  vector_isalloc (mkvector ts len it None) = true.
Proof.
  repeat split.
Qed.

(** ** The string helper *)

Lemma makestr_length_zero (first last : Z) :
  VECTOR_MIN 0 (VECTOR_MAX (size_sub last first) last) = 0.
Proof.
  apply VECTOR_MIN_zero. rewrite VECTOR_MAX_max.
  pose proof (wrap_range (last - first)) as H. unfold is_size in H.
  unfold size_sub. lia.
Qed.

Lemma copy_from_nothing (d : Mem.block) (s : option Mem.block) :
  fst (copy_from (Some d) s 0) = Some d.
Proof.
  destruct s as [s|]; simpl; [|reflexivity].
  unfold Mem.memcpy. destruct (Z.leb_spec 0 (Mem.blen s)) as [_|Hn].
  - unfold Mem.store, Mem.take, Mem.drop. simpl.
    destruct (_ <=? Mem.blen d); reflexivity.
  - pose proof (blen_nonneg s). lia.
Qed.

(** C7: [vector_makestr] takes as copy length the minimum of zero and the
    maximum of [last - first] and [last], computed in [size_t]; it stores
    that length through [outLen] when the pointer is not [NULL], and returns
    a fresh block holding that many bytes from the start of the buffer
    followed by the terminating zero (or [NULL] when the allocator fails).
    Over an unsigned type that minimum is zero. *)
Theorem vector_makestr_spec (v : vector) (first last : Z) (outLen : option Z) :
  let n := makestr_length_spec first last in
  let r := vector_makestr true v first last outLen in
  out_len r = option_map (fun _ => n) outLen /\
  str r = Some (Mem.take n (buffer_bytes v) ++ [x00]) /\
  str (vector_makestr false v first last outLen) = None /\
  n = 0.
Proof.
  intros n r.
  assert (Hn : n = 0).
  { unfold n, makestr_length_spec.
    rewrite <- VECTOR_MAX_max, <- VECTOR_MIN_min. apply makestr_length_zero. }
  assert (Hc : Mem.calloc true (size_add 0 1) 1 = Some [x00]) by reflexivity.
  subst r. unfold vector_makestr.
  rewrite !makestr_length_zero, Hc, Hn.
  pose proof (copy_from_nothing [x00] (data v)) as Hcp.
  destruct (copy_from (Some [x00]) (data v) 0) as [s fl].
  cbn [fst] in Hcp. rewrite Hcp.
  destruct outLen; simpl; repeat split; reflexivity.
Qed.

(** ** Insertion *)

Section Insert.

Lemma realloc_fields (a : Mem.answer) (v : vector) (n : Z) :
  typeSize (snd (vector_realloc a v n)) = typeSize v /\
  iterator (snd (vector_realloc a v n)) = iterator v.
Proof.
  unfold vector_realloc.
  destruct (Mem.realloc a (data v) _); simpl; auto.
Qed.

Lemma realloc_block_size (a : Mem.answer) (v : vector) (n : Z) :
  vector_ok v -> vector_ok (snd (vector_realloc a v n)).
Proof.
  intros (Ht & Hl & Hi & Hd). unfold vector_realloc.
  destruct (Mem.realloc a (data v) _) as [b|] eqn:E; simpl.
  - destruct a as [junk|]; [|discriminate].
    apply realloc_blen in E; [|apply wrap_range].
    unfold vector_ok. cbn [typeSize length iterator data set_length set_data].
    rewrite E.
    split; [exact Ht | split; [apply wrap_range | split; [exact Hi |]]].
    apply is_size_small, wrap_range.
  - unfold vector_ok; tauto.
Qed.

Lemma grown_fields (a : Mem.answer) (v : vector) :
  typeSize (grown a v) = typeSize v /\ iterator (grown a v) = iterator v.
Proof.
  unfold grown. destruct (iterator v =? length v); [apply realloc_fields | auto].
Qed.

Lemma grown_ok (a : Mem.answer) (v : vector) : vector_ok v -> vector_ok (grown a v).
Proof.
  unfold grown. destruct (iterator v =? length v); [apply realloc_block_size | auto].
Qed.

(** A successful, in-bounds insert has run both copies inside the block. *)
Lemma insert_inversion (a : Mem.answer) (v : vector) (src : list byte) (index : Z) :
  ret (vector_insert a v src index) = true ->
  in_bounds (vector_insert a v src index) = true ->
  let byteIndex := size_mul index (to_size (typeSize v)) in
  let ts := to_size (typeSize v) in
  exists b1 b2 b3 : Mem.block,
    data (grown a v) = Some b1 /\
    byteIndex <= iterator v /\
    Mem.memmove b1 (size_add byteIndex ts) byteIndex (size_sub (iterator v) byteIndex)
      = Some b2 /\
    Mem.memcpy b2 byteIndex src ts = Some b3 /\
    vec (vector_insert a v src index) =
      mkvector (typeSize v) (length (grown a v)) (size_add (iterator v) ts) (Some b3).
Proof.
  intros Hret Hin byteIndex ts.
  unfold vector_insert in *. fold (grown a v) in *.
  destruct (grown_fields a v) as (Hts & Hit).
  fold byteIndex in Hret, Hin |- *.
  set (g := grown a v) in *.
  destruct (addr_of_data_is_null g || (byteIndex <? 0) || (byteIndex >? iterator g)) eqn:G.
  { simpl in Hret. discriminate. }
  apply orb_false_elim in G. destruct G as (_ & G).
  rewrite Z.gtb_ltb in G. apply Z.ltb_ge in G. rewrite Hit in G.
  unfold on_buffer in *.
  destruct (data g) as [b1|] eqn:D1.
  2:{ simpl in Hin. rewrite D1 in Hin. simpl in Hin. discriminate. }
  rewrite Hts, Hit in *. fold ts in Hin, Hret |- *.
  destruct (Mem.memmove b1 (size_add byteIndex ts) byteIndex
              (size_sub (iterator v) byteIndex)) as [b2|] eqn:M1.
  2:{ rewrite D1 in Hin. destruct (Mem.memcpy b1 byteIndex src _); simpl in Hin; discriminate. }
  cbn [data set_data typeSize] in *. rewrite Hts in *. fold ts in Hin, Hret |- *.
  destruct (Mem.memcpy b2 byteIndex src ts) as [b3|] eqn:M2.
  2:{ simpl in Hin. discriminate. }
  exists b1, b2, b3. cbn. rewrite Hts, Hit. fold ts.
  repeat (split; [assumption || reflexivity|]).
  unfold set_iterator, set_data. cbn. rewrite Hts. reflexivity.
Qed.

End Insert.

(** C1: when [vector_insert(vector, data, index)] returns true and its two
    copies stayed inside the buffer (the vector is allocated, the index is
    within the live range and there is room for the element), the
    [vector_get(vector, index)] that follows returns the pointer
    [data + index * typeSize], and the [typeSize] bytes there are the
    [typeSize] bytes of the inserted data. *)
Theorem insert_get_roundtrip (a : Mem.answer) (v : vector) (src : list byte) (index : Z) :
  vector_ok v ->
  ret (vector_insert a v src index) = true ->
  in_bounds (vector_insert a v src index) = true ->
  let v' := vec (vector_insert a v src index) in
  let byteIndex := size_mul index (to_size (typeSize v)) in
  vector_get v' index = Some byteIndex /\
  read_at v' byteIndex (vector_typesize v') = Some (Mem.take (vector_typesize v) src).
Proof.
  intros Hok Hret Hin v' byteIndex.
  destruct (insert_inversion a v src index Hret Hin)
    as (b1 & b2 & b3 & D1 & Hle & M1 & M2 & Hv).
  fold byteIndex in Hle, M1, M2, Hv. fold v' in Hv.
  set (ts := to_size (typeSize v)) in *.
  pose proof (wrap_range (typeSize v)) as Hts. fold (to_size (typeSize v)) in Hts.
  fold ts in Hts. unfold is_size in Hts.
  pose proof (wrap_range (index * ts)) as Hbi.
  fold (size_mul index ts) in Hbi. fold byteIndex in Hbi. unfold is_size in Hbi.
  destruct (grown_ok a v Hok) as (_ & _ & _ & Hb1). rewrite D1 in Hb1.
  destruct Hok as (_ & _ & Hit & _).
  apply memmove_bounds in M1. destruct M1 as (Hn & _ & _ & Hd0 & Hd1 & Hb2).
  apply memcpy_bounds in M2; [|lia]. destruct M2 as (_ & Hc1 & _ & Hb3 & Hload).
  rewrite (size_sub_le (iterator v) byteIndex Hit ltac:(lia)) in Hd1.
  assert (Hdst : size_add byteIndex ts = byteIndex + ts).
  { unfold size_add. apply wrap_small. lia. }
  rewrite Hdst in Hd1.
  assert (Hnew : size_add (iterator v) ts = iterator v + ts).
  { unfold size_add. apply wrap_small. unfold is_size in Hit. lia. }
  rewrite Hnew in Hv.
  split.
  - unfold vector_get. rewrite Hv. cbn [typeSize iterator data].
    fold ts. fold byteIndex. unfold addr_of_data_is_null. cbn [orb].
    destruct (Z.ltb_spec byteIndex 0); [lia|].
    rewrite Z.gtb_ltb. destruct (Z.ltb_spec (iterator v + ts) byteIndex); [lia|].
    reflexivity.
  - unfold read_at, vector_typesize. rewrite Hv. cbn [typeSize data].
    exact Hload.
Qed.

Lemma insert_get_roundtrip_witness :
  vector_get Scenario.v2 1 = Some 4 /\
  read_at Scenario.v2 4 4 = Some (Scenario.le32 x14).
Proof.
  apply (insert_get_roundtrip None Scenario.v1 (Scenario.le32 x14) 1).
  - unfold vector_ok. vm_compute. repeat split; discriminate.
  - reflexivity.
  - reflexivity.
Defined.

(** Scenario A: four inserts, four elements read back. *)
Lemma scenario_A :
  vector_count Scenario.v4 = Some 4 /\
  read_at Scenario.v4 0 4 = Some (Scenario.le32 x0a) /\
  read_at Scenario.v4 4 4 = Some (Scenario.le32 x14) /\
  read_at Scenario.v4 8 4 = Some (Scenario.le32 x1e) /\
  read_at Scenario.v4 12 4 = Some (Scenario.le32 x28) /\
  vector_get Scenario.v4 3 = Some 12.
Proof. vm_compute. repeat split. Qed.

(** An insert that stayed in bounds found [typeSize] bytes of room after
    the live range. *)
Lemma insert_room (a : Mem.answer) (v : vector) (src : list byte) (index : Z) :
  vector_ok v ->
  ret (vector_insert a v src index) = true ->
  in_bounds (vector_insert a v src index) = true ->
  exists b1 : Mem.block,
    data (grown a v) = Some b1 /\
    iterator v + to_size (typeSize v) <= Mem.blen b1.
Proof.
  intros Hok Hret Hin.
  destruct (insert_inversion a v src index Hret Hin)
    as (b1 & b2 & b3 & D1 & Hle & M1 & M2 & _).
  exists b1. split; [exact D1|].
  set (ts := to_size (typeSize v)) in *.
  set (byteIndex := size_mul index ts) in *.
  assert (Hts : is_size ts) by apply wrap_range.
  assert (Hbi : is_size byteIndex) by apply wrap_range.
  unfold is_size in Hts, Hbi.
  destruct (grown_ok a v Hok) as (_ & _ & _ & Hb1). rewrite D1 in Hb1.
  destruct Hok as (_ & _ & Hit & _).
  apply memmove_bounds in M1. destruct M1 as (_ & _ & _ & _ & Hd1 & Hb2).
  apply memcpy_bounds in M2; [|lia]. destruct M2 as (_ & Hc1 & _).
  rewrite (size_sub_le (iterator v) byteIndex Hit ltac:(lia)) in Hd1.
  unfold size_add in Hd1. rewrite wrap_small in Hd1 by lia. lia.
Qed.

Lemma on_buffer_fields (f : Mem.block -> option Mem.block) (v : vector) (ok : bool) :
  typeSize (fst (on_buffer f v ok)) = typeSize v /\
  length (fst (on_buffer f v ok)) = length v /\
  iterator (fst (on_buffer f v ok)) = iterator v.
Proof.
  unfold on_buffer. destruct (data v) as [b|]; [|auto].
  destruct (f b); auto.
Qed.

(** The fields after an insert whose bound check passes. *)
Lemma insert_accepts (a : Mem.answer) (v : vector) (src : list byte) (index : Z) :
  0 <= size_mul index (to_size (typeSize v)) <= iterator v ->
  let r := vector_insert a v src index in
  ret r = true /\
  typeSize (vec r) = typeSize v /\
  length (vec r) = length (grown a v) /\
  iterator (vec r) = size_add (iterator v) (to_size (typeSize v)).
Proof.
  intros Hb r. subst r. unfold vector_insert. fold (grown a v).
  destruct (grown_fields a v) as (Hts & Hit).
  set (g := grown a v) in *. rewrite Hit.
  set (byteIndex := size_mul index (to_size (typeSize v))) in *.
  unfold addr_of_data_is_null. cbn [orb].
  destruct (Z.ltb_spec byteIndex 0); [lia|].
  rewrite Z.gtb_ltb. destruct (Z.ltb_spec (iterator v) byteIndex); [lia|].
  cbn [orb].
  match goal with |- context [on_buffer ?f g true] =>
    pose proof (on_buffer_fields f g true) as F1;
    destruct (on_buffer f g true) as [v2 ok2] end.
  cbn [fst] in F1. destruct F1 as (A1 & A2 & A3).
  match goal with |- context [on_buffer ?f v2 ok2] =>
    pose proof (on_buffer_fields f v2 ok2) as F2;
    destruct (on_buffer f v2 ok2) as [v3 ok3] end.
  cbn [fst] in F2. destruct F2 as (B1 & B2 & B3).
  cbn. repeat split; congruence.
Qed.

Lemma count_mul_le (v : vector) (c : Z) :
  vector_ok v -> 0 < typeSize v -> vector_count v = Some c ->
  to_size (typeSize v) = typeSize v /\
  c = iterator v / typeSize v /\
  0 <= c * typeSize v <= iterator v /\
  size_mul c (to_size (typeSize v)) = c * typeSize v.
Proof.
  intros (Ht & _ & Hi & _) Hpos Hc.
  assert (Hts : to_size (typeSize v) = typeSize v).
  { apply to_size_pos. unfold is_int32 in Ht. lia. }
  unfold vector_count in Hc. rewrite Hts, size_div_pos in Hc by lia.
  inversion Hc as [Hc']. clear Hc. rewrite Hc'.
  unfold is_size in Hi.
  assert (H0 : 0 <= c) by (subst c; apply Z.div_pos; lia).
  assert (H1 : c * typeSize v <= iterator v).
  { subst c. rewrite Z.mul_comm. apply Z.mul_div_le. lia. }
  repeat split; try lia.
  apply size_mul_exact. unfold SIZE_MAX. lia.
Qed.

(** C9: on a full vector ([iterator == length > 0]) whose growth
    reallocation fails, the append at [index == vector_count(vector)] passes
    the bound check and returns true; [length] keeps its value and
    [iterator] advances by [typeSize], past [length]: the failure of the
    allocator is not reported. *)
Theorem insert_growth_failure (v : vector) (src : list byte) (c : Z) :
  vector_ok v -> 0 < typeSize v ->
  iterator v = length v -> 0 < length v ->
  length v + typeSize v <= SIZE_MAX ->
  vector_count v = Some c ->
  let r := vector_insert None v src c in
  ret r = true /\
  typeSize (vec r) = typeSize v /\
  length (vec r) = length v /\
  iterator (vec r) = iterator v + typeSize v /\
  length (vec r) < iterator (vec r).
Proof.
  intros Hok Hpos Hfull Hlen Hfit Hc r.
  destruct (count_mul_le v c Hok Hpos Hc) as (Hts & _ & Hle & Hmul).
  destruct (insert_accepts None v src c ltac:(rewrite Hmul; lia))
    as (R1 & R2 & R3 & R4).
  fold r in R1, R2, R3, R4.
  assert (Hg : grown None v = v).
  { unfold grown. destruct (iterator v =? length v); reflexivity. }
  rewrite Hg in R3. rewrite Hts in R4.
  unfold size_add in R4. rewrite wrap_small in R4 by lia.
  repeat split; try assumption. lia.
Qed.

Lemma insert_growth_failure_witness :
  let r := vector_insert None Scenario.v4 (Scenario.le32 x32) 4 in
  ret r = true /\ typeSize (vec r) = 4 /\ length (vec r) = 16 /\
  iterator (vec r) = 16 + 4 /\ length (vec r) < iterator (vec r).
Proof.
  apply (insert_growth_failure Scenario.v4 (Scenario.le32 x32) 4).
  - unfold vector_ok. vm_compute. repeat split; discriminate.
  - reflexivity.
  - reflexivity.
  - reflexivity.
  - vm_compute. discriminate.
  - reflexivity.
Defined.

(** On a vector whose block is exactly [length] bytes that append writes
    outside the block. *)
Lemma failed_growth_append_overruns (v : vector) (src : list byte) (index : Z) (b : Mem.block) :
  vector_ok v -> 0 < typeSize v ->
  iterator v = length v -> data v = Some b -> Mem.blen b = length v ->
  ret (vector_insert None v src index) = true ->
  in_bounds (vector_insert None v src index) = false.
Proof.
  intros Hok Hpos Hfull Hd Hb Hret.
  destruct (in_bounds (vector_insert None v src index)) eqn:Hin; [|reflexivity].
  destruct (insert_room None v src index Hok Hret Hin) as (b1 & D1 & Hroom).
  assert (Hg : grown None v = v).
  { unfold grown. destruct (iterator v =? length v); reflexivity. }
  rewrite Hg, Hd in D1. inversion D1; subst b1.
  rewrite to_size_pos in Hroom; [lia|].
  destruct Hok as (Ht & _). unfold is_int32 in Ht. lia.
Qed.

(** ** Removal *)

Lemma remove_accepts (v : vector) (index : Z) :
  data v <> None ->
  0 <= size_mul index (to_size (typeSize v)) <= iterator v ->
  let r := vector_remove v index in
  ret r = true /\
  typeSize (vec r) = typeSize v /\
  length (vec r) = length v /\
  iterator (vec r) =
    size_sub (iterator v) (to_size (if iterator v >? 0 then typeSize v else 0)).
Proof.
  intros Hd Hb r. subst r. unfold vector_remove.
  set (byteIndex := size_mul index (to_size (typeSize v))) in *.
  destruct (data v) as [b|] eqn:D; [|congruence]. cbn [is_null orb].
  destruct (Z.ltb_spec byteIndex 0); [lia|].
  rewrite (Z.gtb_ltb byteIndex). destruct (Z.ltb_spec (iterator v) byteIndex); [lia|].
  cbn [orb].
  match goal with |- context [on_buffer ?f ?w true] =>
    pose proof (on_buffer_fields f w true) as F1;
    destruct (on_buffer f w true) as [v2 ok2] end.
  cbn [fst] in F1. destruct F1 as (A1 & A2 & A3).
  cbn. repeat split; assumption.
Qed.

(** The fields after a removal, on an allocated vector whose [iterator] is
    a multiple of [typeSize] and for [index * typeSize <= iterator]: the
    call returns true, the count drops by one when it was positive and
    stays zero when it was zero; the index equal to the count passes the
    guard. *)
Lemma vector_remove_fields_count (v : vector) (index c : Z) :
  vector_ok v -> 0 < typeSize v ->
  iterator v mod typeSize v = 0 ->
  data v <> None ->
  size_mul index (to_size (typeSize v)) <= iterator v ->
  vector_count v = Some c ->
  let r := vector_remove v index in
  ret r = true /\
  vector_count (vec r) = Some (if c >? 0 then c - 1 else 0) /\
  length (vec r) = length v /\
  ret (vector_remove v c) = true.
Proof.
  intros Hok Hpos Hmod Hd Hidx Hc r.
  destruct (count_mul_le v c Hok Hpos Hc) as (Hts & Hcdef & Hle & Hmul).
  assert (Hbi : 0 <= size_mul index (to_size (typeSize v)))
    by apply (wrap_range (index * to_size (typeSize v))).
  destruct (remove_accepts v index Hd (conj Hbi Hidx)) as (R1 & R2 & R3 & R4).
  fold r in R1, R2, R3, R4.
  destruct Hok as (_ & _ & Hit & _).
  assert (Hexact : iterator v = c * typeSize v).
  { rewrite Hcdef. rewrite Z.mul_comm. apply Z.div_exact; lia. }
  split; [exact R1|]. split; [|split; [exact R3|]].
  - unfold vector_count. rewrite R2, R4, Hts, size_div_pos by lia. f_equal.
    rewrite !Z.gtb_ltb.
    destruct (Z.ltb_spec 0 (iterator v)) as [Hgt|Hz].
    + assert (Hc1 : 1 <= c) by nia.
      destruct (Z.ltb_spec 0 c); [|lia].
      rewrite Hts, size_sub_le by (try assumption; nia).
      replace (iterator v - typeSize v) with ((c - 1) * typeSize v) by lia.
      apply Z.div_mul. lia.
    + unfold is_size in Hit. assert (Hi0 : iterator v = 0) by lia.
      assert (Hc0 : c = 0) by nia.
      destruct (Z.ltb_spec 0 c); [lia|].
      rewrite Hi0. reflexivity.
  - apply (remove_accepts v c Hd). rewrite Hmul. lia.
Qed.

Lemma vector_remove_fields_count_example :
  let r := vector_remove Scenario.v4 1 in
  ret r = true /\ vector_count (vec r) = Some 3 /\ length (vec r) = 16 /\
  ret (vector_remove Scenario.v4 4) = true.
Proof.
  apply (vector_remove_fields_count Scenario.v4 1 4).
  - unfold vector_ok. vm_compute. repeat split; discriminate.
  - reflexivity.
  - reflexivity.
  - vm_compute. discriminate.
  - vm_compute. discriminate.
  - reflexivity.
Defined.

Lemma load_ok (b : Mem.block) (off n : Z) :
  0 <= off -> 0 <= n -> off + n <= Mem.blen b ->
  exists bs, Mem.load b off n = Some bs /\ Mem.blen bs = n.
Proof.
  intros H0 H1 H2. unfold Mem.load.
  destruct (Z.leb_spec 0 off); [|lia].
  destruct (Z.leb_spec 0 n); [|lia].
  destruct (Z.leb_spec (off + n) (Mem.blen b)); [|lia].
  eexists. split; [reflexivity|].
  apply blen_take. rewrite blen_drop; lia.
Qed.

Lemma memmove_ok (b : Mem.block) (dst src n : Z) :
  0 <= dst -> 0 <= src -> 0 <= n ->
  dst + n <= Mem.blen b -> src + n <= Mem.blen b ->
  exists b', Mem.memmove b dst src n = Some b'.
Proof.
  intros Hd Hs Hn Hdn Hsn. unfold Mem.memmove.
  destruct (load_ok b src n Hs Hn Hsn) as (bs & -> & Hbs).
  unfold Mem.store. rewrite Hbs.
  destruct (Z.leb_spec 0 dst); [|lia].
  destruct (Z.leb_spec (dst + n) (Mem.blen b)); [|lia].
  eexists. reflexivity.
Qed.

(** Removal of an element that exists: for [index < count] on a vector
    whose live range lies inside its block, the move stays in the block,
    the call returns true and the count drops by one. *)
Lemma vector_remove_in_range (v : vector) (index c : Z) (b : Mem.block) :
  vector_ok v -> 0 < typeSize v ->
  iterator v mod typeSize v = 0 ->
  data v = Some b -> iterator v <= Mem.blen b ->
  vector_count v = Some c -> 0 <= index < c ->
  let r := vector_remove v index in
  ret r = true /\ in_bounds r = true /\
  vector_count (vec r) = Some (c - 1) /\ length (vec r) = length v.
Proof.
  intros Hok Hpos Hmod Hd Hblk Hc Hidx r.
  destruct (count_mul_le v c Hok Hpos Hc) as (Hts & Hcdef & Hle & Hmul).
  pose proof Hok as (_ & _ & Hit & _). unfold is_size in Hit.
  assert (Hexact : iterator v = c * typeSize v).
  { rewrite Hcdef. rewrite Z.mul_comm. apply Z.div_exact; lia. }
  assert (Hbi : size_mul index (to_size (typeSize v)) = index * typeSize v).
  { apply size_mul_exact. unfold SIZE_MAX. nia. }
  assert (Hgt : (iterator v >? 0) = true).
  { rewrite Z.gtb_ltb. apply Z.ltb_lt. nia. }
  subst r. unfold vector_remove. rewrite Hbi, Hd, Hgt. cbv iota. rewrite Hts.
  cbn [is_null orb].
  destruct (Z.ltb_spec (index * typeSize v) 0); [nia|].
  rewrite (Z.gtb_ltb (index * typeSize v)).
  destruct (Z.ltb_spec (iterator v) (index * typeSize v)); [nia|].
  cbn [orb]. rewrite (size_sub_le (iterator v)) by (unfold is_size; nia).
  unfold on_buffer. cbn [data set_iterator typeSize iterator].
  rewrite Hd. rewrite size_sub_le by (unfold is_size; nia).
  destruct (memmove_ok b (index * typeSize v) (index * typeSize v + typeSize v)
              (iterator v - typeSize v - index * typeSize v)) as (b' & ->);
    try nia.
  cbn. repeat split.
  unfold vector_count, set_iterator, set_data. cbn [iterator typeSize].
  rewrite Hts, size_div_pos by lia. f_equal.
  replace (iterator v - typeSize v) with ((c - 1) * typeSize v) by lia.
  apply Z.div_mul. lia.
Qed.

(** C5: the guard of [vector_remove] also accepts the index equal to the
    count.  On the vector of four elements of Scenario A, [vector_remove]
    at index 4 passes the guard and moves [iterator] back, and then asks
    [memmove] for [iterator - byteIndex] bytes, a difference that wrapped
    around to [2^64 - 4]: the move leaves the 16-byte block. *)
Theorem remove_at_count_wraps :
  let v := Scenario.v4 in
  let r := vector_remove v 4 in
  vector_count v = Some 4 /\
  size_mul 4 (to_size (typeSize v)) <= iterator v /\
  ret r = true /\ vector_count (vec r) = Some 3 /\
  size_sub (iterator (vec r)) (size_mul 4 (to_size (typeSize v))) = MODULUS - 4 /\
  option_map Mem.blen (data v) = Some 16 /\
  in_bounds r = false.
Proof. vm_compute. repeat split. discriminate. Qed.

(** On an empty vector the removal at index 0 changes nothing. *)
Lemma remove_on_empty :
  let r := vector_remove Scenario.v0 0 in
  ret r = true /\ in_bounds r = true /\ vec r = Scenario.v0 /\
  vector_count (vec r) = Some 0.
Proof. vm_compute. repeat split. Qed.

(** Scenario C: removing the element at index 1 closes the gap. *)
Lemma remove_shifts_left :
  let r := vector_remove Scenario.v4 1 in
  in_bounds r = true /\
  read_at (vec r) 0 12 =
    Some (Scenario.le32 x0a ++ Scenario.le32 x1e ++ Scenario.le32 x28).
Proof. vm_compute. repeat split. Qed.

(** ** Growth *)

Lemma size_shl_one (x : Z) : 0 <= 2 * x <= SIZE_MAX -> size_shl x 1 = 2 * x.
Proof.
  intros H. unfold size_shl. rewrite Z.shiftl_mul_pow2 by lia.
  change (2 ^ 1) with 2. rewrite wrap_small; lia.
Qed.

(** What the growth step of [vector_insert] asks for: [length << 1]
    elements, that is [2 * length * typeSize] bytes. *)
Lemma grown_full_length (junk : nat -> byte) (v : vector) :
  is_size (length v) -> 0 < typeSize v -> iterator v = length v ->
  2 * length v * typeSize v <= SIZE_MAX ->
  length (grown (Some junk) v) = 2 * length v * typeSize v /\
  exists b, data (grown (Some junk) v) = Some b /\
            Mem.blen b = 2 * length v * typeSize v.
Proof.
  intros Hl Hpos Hfull Hfit. unfold is_size in Hl.
  unfold grown. rewrite Hfull, Z.eqb_refl.
  assert (Hshl : size_shl (length v) 1 = 2 * length v).
  { apply size_shl_one. nia. }
  assert (Hmul : size_mul (size_shl (length v) 1) (to_size (typeSize v))
                 = 2 * length v * typeSize v).
  { rewrite Hshl. apply size_mul_exact. nia. }
  unfold vector_realloc.
  destruct (Mem.realloc (Some junk) (data v) _) as [b|] eqn:E; [|discriminate].
  cbn [snd length data set_length set_data]. split; [exact Hmul|].
  exists b. split; [reflexivity|].
  apply realloc_blen in E; [|apply wrap_range]. congruence.
Qed.

(** With elements of one byte the growth is a doubling. *)
Lemma insert_full_doubles_bytes :
  let v := snd (vector_move Scenario.b0 4) in
  let r := vector_insert (Some Scenario.junk) v [x07] 4 in
  vector_count v = Some 4 /\ vector_maxsize v = Some 4 /\
  ret r = true /\ in_bounds r = true /\
  vector_count (vec r) = Some 5 /\ vector_maxsize (vec r) = Some 8.
Proof. vm_compute. repeat split. Qed.

(** C2: a full vector of four 4-byte elements (Scenarios A and B of the
    specification).  The append of a fifth element succeeds and the element
    is stored, but the growth step passes the byte length, shifted, where
    [vector_realloc] expects a count of elements: the capacity goes from 4
    to 32 elements, not to 8. *)
Theorem insert_full_capacity_scenario :
  let v := Scenario.v4 in
  let r := vector_insert (Some Scenario.junk) v (Scenario.le32 x32) 4 in
  vector_count v = Some 4 /\ vector_maxsize v = Some 4 /\
  ret r = true /\ in_bounds r = true /\
  vector_count (vec r) = Some 5 /\
  read_at (vec r) 16 4 = Some (Scenario.le32 x32) /\
  vector_maxsize (vec r) = Some 32 /\
  vector_maxsize (vec r) <> Some (2 * 4).
Proof. vm_compute. repeat split; discriminate. Qed.

(** ** Insertion into a vector that was never allocated *)

Lemma calloc_unreserved (ok : bool) (ts : Z) :
  vector_calloc ok ts false = mkvector ts 0 0 None.
Proof.
  unfold vector_calloc. cbn [bool_to_Z]. f_equal.
Qed.

(** C3: on a vector built with [reserve = false] the guard of
    [vector_insert] tests the address of the [data] field, which is never
    [NULL]: with index 0 the call goes on, copies through a pointer to no
    storage, advances [iterator] and returns true, whatever the allocator
    answers to the growth request. *)
Theorem insert_unallocated_index_zero (a : Mem.answer) (ok : bool) (src : list byte) :
  let v := vector_calloc ok 4 false in
  let r := vector_insert a v src 0 in
  data v = None /\ vector_count v = Some 0 /\ vector_maxsize v = Some 0 /\
  ret r = true /\ vector_count (vec r) = Some 1 /\ vector_maxsize (vec r) = Some 0 /\
  in_bounds r = false.
Proof.
  intros v r. subst v r. rewrite calloc_unreserved.
  set (v := mkvector 4 0 0 None).
  assert (Hok : vector_ok v).
  { unfold vector_ok, v; cbn [typeSize length iterator data].
    unfold is_int32, is_size. repeat split; discriminate. }
  assert (Hg : length (grown a v) = 0 /\
               match data (grown a v) with Some b => Mem.blen b = 0 | None => True end).
  { destruct a as [junk|]; split; reflexivity. }
  destruct Hg as (Hgl & Hgd).
  destruct (insert_accepts a v src 0) as (R1 & R2 & R3 & R4).
  { split; discriminate. }
  repeat split; try reflexivity; try exact R1.
  - unfold vector_count. rewrite R2, R4. reflexivity.
  - unfold vector_maxsize. rewrite R2, R3, Hgl. reflexivity.
  - destruct (in_bounds (vector_insert a v src 0)) eqn:Hin; [|reflexivity].
    destruct (insert_room a v src 0 Hok R1 Hin) as (b1 & D1 & Hroom).
    rewrite D1 in Hgd. rewrite Hgd in Hroom.
    change (0 + 4 <= 0) in Hroom. lia.
Qed.

(** With a positive index the same call is refused. *)
Lemma insert_unallocated_index_positive (a : Mem.answer) (ok : bool) (src : list byte) :
  let r := vector_insert a (vector_calloc ok 4 false) src 1 in
  ret r = false /\ vector_count (vec r) = Some 0 /\ vector_maxsize (vec r) = Some 0.
Proof.
  rewrite calloc_unreserved. destruct a; repeat split.
Qed.

(** ** The capacity invariant along sequences of calls *)

Section CapacityInvariant.

Lemma Inv_to_size (v : vector) : Inv v -> to_size (typeSize v) = typeSize v.
Proof. intros (Ht & _). apply to_size_pos. exact Ht. Qed.

Lemma Inv_fields (v w : vector) :
  typeSize w = typeSize v -> length w = length v -> iterator w = iterator v ->
  Inv v -> Inv w.
Proof. unfold Inv. intros -> -> ->. auto. Qed.

Lemma Inv_capacity (v : vector) :
  Inv v -> capacity_invariant v /\ iterator v <= length v.
Proof.
  intros H. pose proof (Inv_to_size v H) as Hts.
  destruct H as (Ht & Hl & Hi & _ & _ & Hle).
  split; [|exact Hle].
  exists (iterator v / typeSize v), (length v / typeSize v).
  unfold vector_count, vector_maxsize. rewrite Hts, !size_div_pos by lia.
  repeat split. apply Z.div_le_mono; lia.
Qed.

Lemma mod0_mul (x t : Z) : 0 < t -> x mod t = 0 -> x = (x / t) * t.
Proof.
  intros Ht Hm. rewrite Z.mul_comm. apply Z.div_exact; lia.
Qed.

Lemma mul_mod0 (k t : Z) : 0 < t -> (k * t) mod t = 0.
Proof. intros Ht. apply Z.mod_mul. lia. Qed.

(** The constructors establish the invariant. *)
Lemma vector_calloc2_Inv (ok : bool) (ts n : Z) (reserve : bool) :
  0 < ts <= INT32_MAX -> 0 <= n -> n * ts <= SIZE_MAX ->
  Inv (vector_calloc2 ok ts n reserve).
Proof.
  intros Hts Hn Hfit. unfold vector_calloc2, Inv.
  cbn [typeSize length iterator].
  set (k := (if reserve then 1 else 0) * n).
  assert (Hk : 0 <= k * ts <= SIZE_MAX /\ 0 <= k <= SIZE_MAX).
  { unfold k. destruct reserve; nia. }
  assert (Hlen : to_size k = k) by (apply wrap_small; lia).
  rewrite Hlen, size_mul_exact by lia.
  split; [exact Hts|]. unfold is_size, SIZE_MAX in *.
  split; [lia|]. split; [lia|].
  split; [apply mul_mod0; lia|].
  split; [reflexivity|lia].
Qed.

Lemma vector_calloc_Inv (ok : bool) (ts : Z) (reserve : bool) :
  0 < ts <= INT32_MAX -> Inv (vector_calloc ok ts reserve).
Proof.
  intros Hts.
  assert (H : vector_calloc ok ts reserve
              = vector_calloc2 ok ts VECTOR_DEFAULT_LENGTH reserve).
  { destruct reserve; reflexivity. }
  rewrite H. apply vector_calloc2_Inv; try assumption.
  - discriminate.
  - unfold VECTOR_DEFAULT_LENGTH, INT32_MAX, SIZE_MAX, MODULUS, SIZE_BITS in *. lia.
Qed.

Lemma clear_loop_fields (fuel : nat) :
  forall (v : vector) (src : list byte) (i : Z) (ok : bool) (w : vector) (ok' : bool),
    clear_loop fuel v src i ok = Some (w, ok') ->
    typeSize w = typeSize v /\ length w = length v /\ iterator w = iterator v.
Proof.
  induction fuel as [|fuel IH]; intros v src i ok w ok' H; simpl in H.
  - discriminate.
  - destruct (i <? length v).
    + match type of H with context [on_buffer ?f v ok] =>
        pose proof (on_buffer_fields f v ok) as F;
        destruct (on_buffer f v ok) as [v1 ok1] end.
      cbn [fst] in F. destruct F as (F1 & F2 & F3).
      apply IH in H. destruct H as (G1 & G2 & G3).
      repeat split; congruence.
    + inversion H; subst. auto.
Qed.

Lemma grown_Inv (a : Mem.answer) (v : vector) :
  Inv v ->
  iterator v < length v \/
    (a <> None /\ 0 < length v /\ 2 * length v * typeSize v <= SIZE_MAX) ->
  Inv (grown a v) /\ iterator v + typeSize v <= length (grown a v).
Proof.
  intros HI Hb. pose proof HI as (Ht & Hl & Hi & Hml & Hmi & Hle).
  pose proof (mod0_mul _ _ (proj1 Ht) Hml) as El.
  pose proof (mod0_mul _ _ (proj1 Ht) Hmi) as Ei.
  unfold is_size in Hl, Hi.
  destruct (Z.eq_dec (iterator v) (length v)) as [Hfull|Hnot].
  - destruct Hb as [Hlt|(Ha & Hpos & Hfit)]; [lia|].
    destruct a as [junk|]; [|congruence].
    destruct (grown_full_length junk v Hl (proj1 Ht) Hfull Hfit) as (Hg & _).
    destruct (grown_fields (Some junk) v) as (G1 & G2).
    split.
    + unfold Inv. rewrite G1, G2, Hg.
      repeat split; try lia.
      * unfold SIZE_MAX in Hfit. lia.
      * replace (2 * length v * typeSize v) with ((2 * length v) * typeSize v) by lia.
        apply mul_mod0. lia.
      * nia.
    + rewrite Hg. nia.
  - assert (Hg : grown a v = v).
    { unfold grown. destruct (Z.eqb_spec (iterator v) (length v)); [lia|reflexivity]. }
    rewrite Hg. split; [exact HI|].
    set (ki := iterator v / typeSize v) in *.
    set (kl := length v / typeSize v) in *.
    assert (Hk : ki + 1 <= kl) by nia.
    rewrite El, Ei. nia.
Qed.

End CapacityInvariant.

Section Steps.

Lemma insert_rejects (a : Mem.answer) (v : vector) (src : list byte) (index : Z) :
  iterator v < size_mul index (to_size (typeSize v)) ->
  vector_insert a v src index = mkoutcome false (grown a v) true.
Proof.
  intros H. unfold vector_insert. fold (grown a v).
  destruct (grown_fields a v) as (_ & Hit). rewrite Hit.
  rewrite (Z.gtb_ltb _ (iterator v)).
  destruct (Z.ltb_spec (iterator v) (size_mul index (to_size (typeSize v)))); [|lia].
  rewrite orb_true_r. reflexivity.
Qed.

Lemma replace_fields (v : vector) (src : list byte) (index : Z) :
  let w := vec (vector_replace v src index) in
  typeSize w = typeSize v /\ length w = length v /\ iterator w = iterator v.
Proof.
  unfold vector_replace.
  destruct (_ || _ || _); [cbn; auto|].
  match goal with |- context [on_buffer ?f v true] =>
    pose proof (on_buffer_fields f v true) as F;
    destruct (on_buffer f v true) as [v1 ok1] end.
  exact F.
Qed.

Lemma replace_unsafe_fields (v : vector) (src : list byte) (index n : Z) :
  let w := vec (vector_replace_unsafe v src index n) in
  typeSize w = typeSize v /\ length w = length v /\ iterator w = iterator v.
Proof.
  unfold vector_replace_unsafe.
  destruct (_ || _ || _); [cbn; auto|].
  match goal with |- context [on_buffer ?f v true] =>
    pose proof (on_buffer_fields f v true) as F;
    destruct (on_buffer f v true) as [v1 ok1] end.
  exact F.
Qed.

Lemma remove_fields (v : vector) (index : Z) :
  let w := vec (vector_remove v index) in
  typeSize w = typeSize v /\ length w = length v /\
  (iterator w = iterator v \/
   iterator w =
     size_sub (iterator v) (to_size (if iterator v >? 0 then typeSize v else 0))).
Proof.
  unfold vector_remove.
  destruct (_ || _ || _); [cbn; auto|].
  match goal with |- context [on_buffer ?f ?u true] =>
    pose proof (on_buffer_fields f u true) as F;
    destruct (on_buffer f u true) as [v1 ok1] end.
  cbn in F |- *. destruct F as (F1 & F2 & F3). auto.
Qed.

Lemma remove_Inv (v : vector) (index : Z) : Inv v -> Inv (vec (vector_remove v index)).
Proof.
  intros HI. destruct (remove_fields v index) as (F1 & F2 & [F3|F3]).
  - exact (Inv_fields _ _ F1 F2 F3 HI).
  - pose proof (Inv_to_size v HI) as Hts.
    destruct HI as (Ht & Hl & Hi & Hml & Hmi & Hle).
    pose proof (mod0_mul _ _ (proj1 Ht) Hmi) as Ei.
    unfold Inv. rewrite F1, F2, F3. clear F1 F2 F3.
    rewrite Z.gtb_ltb. unfold is_size in *.
    destruct (Z.ltb_spec 0 (iterator v)) as [Hgt|Hz].
    + rewrite Hts.
      assert (Hk : 1 <= iterator v / typeSize v) by nia.
      rewrite size_sub_le by (unfold is_size; nia).
      repeat split; try lia; try nia.
      replace (iterator v - typeSize v)
        with ((iterator v / typeSize v - 1) * typeSize v) by lia.
      apply mul_mod0. lia.
    + assert (Hi0 : iterator v = 0) by lia. rewrite Hi0.
      change (size_sub 0 (to_size 0)) with 0.
      repeat split; try lia; try (apply Z.mod_0_l; lia).
Qed.

Lemma insert_Inv (a : Mem.answer) (v : vector) (src : list byte) (index : Z) :
  Inv v -> benign v (OpInsert a src index) -> Inv (vec (vector_insert a v src index)).
Proof.
  intros HI Hb. cbn [benign] in Hb.
  destruct (grown_Inv a v HI Hb) as (Hg & Hroom).
  set (byteIndex := size_mul index (to_size (typeSize v))).
  destruct (Z.lt_ge_cases (iterator v) byteIndex) as [Hlt|Hge].
  - rewrite insert_rejects by exact Hlt. exact Hg.
  - assert (H0 : 0 <= byteIndex) by apply (wrap_range (index * to_size (typeSize v))).
    destruct (insert_accepts a v src index (conj H0 Hge)) as (_ & R2 & R3 & R4).
    rewrite (Inv_to_size v HI) in R4.
    destruct (grown_fields a v) as (G1 & G2).
    destruct Hg as (Ht & Hl & Hi & Hml & Hmi & Hle).
    rewrite G1 in *. rewrite G2 in *. unfold is_size in *.
    unfold size_add in R4. rewrite wrap_small in R4 by (unfold SIZE_MAX; lia).
    unfold Inv. rewrite R2, R3, R4. unfold is_size.
    repeat split; try lia.
    rewrite <- Z.add_mod_idemp_l, Hmi by lia. simpl.
    apply Z.mod_same. lia.
Qed.

(** Every benign call keeps I1-I3. *)
Lemma step_Inv (v : vector) (o : op) (r : outcome bool) :
  Inv v -> benign v o -> step v o = Some r -> Inv (vec r).
Proof.
  intros HI Hb Hs. pose proof HI as (Ht & Hl & Hi & Hml & Hmi & Hle).
  destruct o as [a n|it|fuel src|a src index|src index|src index n|index|index|];
    cbn [step] in Hs.
  - inversion Hs; subst r; clear Hs. cbn [vec].
    unfold vector_realloc. destruct a as [junk|]; [|exact HI].
    cbn [benign] in Hb. destruct Hb as (Hn & Hlo & Hhi).
    cbn [Mem.realloc snd]. unfold Inv.
    cbn [typeSize length iterator set_length set_data].
    rewrite size_mul_exact by nia. unfold is_size, SIZE_MAX in *.
    repeat split; try lia. apply mul_mod0. lia.
  - inversion Hs; subst r; clear Hs. cbn [vec].
    cbn [benign] in Hb. destruct Hb as (Hn & Hfit).
    unfold vector_move. rewrite size_mul_exact by nia.
    destruct (_ || _ || (it * typeSize v >? length v)) eqn:G; [exact HI|].
    apply orb_false_elim in G. destruct G as (_ & G).
    rewrite Z.gtb_ltb in G. apply Z.ltb_ge in G.
    cbn [snd]. unfold Inv. cbn [typeSize length iterator set_iterator].
    unfold is_size, SIZE_MAX in *.
    repeat split; try lia; try nia. apply mul_mod0. lia.
  - unfold vector_clear in Hs.
    destruct (_ || (length v <=? 0)).
    + inversion Hs; subst r. exact HI.
    + destruct (clear_loop fuel v src 0 true) as [[w ok]|] eqn:E; [|discriminate].
      inversion Hs; subst r; clear Hs. cbn [vec].
      apply clear_loop_fields in E. destruct E as (E1 & E2 & E3).
      unfold Inv. cbn [typeSize length iterator set_iterator].
      rewrite E1, E2. unfold is_size in *.
      repeat split; try lia; try (apply Z.mod_0_l; lia).
  - inversion Hs; subst r. apply insert_Inv; assumption.
  - inversion Hs; subst r.
    destruct (replace_fields v src index) as (F1 & F2 & F3).
    exact (Inv_fields _ _ F1 F2 F3 HI).
  - inversion Hs; subst r.
    destruct (replace_unsafe_fields v src index n) as (F1 & F2 & F3).
    exact (Inv_fields _ _ F1 F2 F3 HI).
  - inversion Hs; subst r. apply remove_Inv. exact HI.
  - inversion Hs; subst r. exact HI.
  - unfold vector_free in Hs. destruct (data v); inversion Hs; subst r; exact HI.
Qed.

End Steps.

Lemma run_Inv (ops : list op) :
  forall r r' : outcome bool,
    Inv (vec r) -> all_benign (vec r) ops -> run r ops = Some r' -> Inv (vec r').
Proof.
  induction ops as [|o rest IH]; intros r r' HI Hb Hrun; simpl in Hrun.
  - inversion Hrun; subst. exact HI.
  - cbn [all_benign] in Hb. destruct Hb as (Hbo & Hrest).
    destruct (step (vec r) o) as [r1|] eqn:Hs; [|discriminate].
    apply (IH r1 r'); try assumption.
    exact (step_Inv _ _ _ HI Hbo Hs).
Qed.

(** C4, amended: from a vector that satisfies I1-I3 (as the constructors
    build it), after every call of a sequence of calls in which no
    [vector_realloc] shrinks below the live length, no size computation
    wraps, and every [vector_insert] either finds the vector not full or
    grows a non-empty buffer successfully, the count is at most the
    capacity and [iterator <= length]. *)
Theorem capacity_invariant_benign (v0 : vector) (ops : list op) (r : outcome bool) :
  Inv v0 -> all_benign v0 ops -> run (constructed v0) ops = Some r ->
  capacity_invariant (vec r) /\ iterator (vec r) <= length (vec r).
Proof.
  intros HI Hb Hrun. apply Inv_capacity.
  exact (run_Inv ops (constructed v0) r HI Hb Hrun).
Qed.

Lemma capacity_invariant_benign_witness :
  capacity_invariant Scenario.v2 /\ iterator Scenario.v2 <= length Scenario.v2.
Proof.
  apply (capacity_invariant_benign Scenario.v0
           [OpInsert None (Scenario.le32 x0a) 0; OpInsert None (Scenario.le32 x14) 1]
           (vector_insert None Scenario.v1 (Scenario.le32 x14) 1)).
  - apply vector_calloc2_Inv; [split; [reflexivity | discriminate] | discriminate | discriminate].
  - split; [left; reflexivity|]. split; [left; reflexivity|]. exact I.
  - reflexivity.
Defined.

(** C4 as stated fails: two inserts into a vector of capacity 4, then a
    successful [vector_realloc] to one element; the count is 2, the
    capacity 1. *)
Lemma capacity_invariant_counterexample :
  let ops := [OpInsert None (Scenario.le32 x0a) 0;
              OpInsert None (Scenario.le32 x14) 1;
              OpRealloc (Some Scenario.junk) 1] in
  Inv Scenario.v0 /\
  match run (constructed Scenario.v0) ops with
  | Some r =>
      ret r = true /\ vector_count (vec r) = Some 2 /\
      vector_maxsize (vec r) = Some 1 /\ ~ capacity_invariant (vec r)
  | None => False
  end.
Proof.
  cbv zeta. split.
  - apply vector_calloc2_Inv; [split; [reflexivity | discriminate] | discriminate | discriminate].
  - set (R := run _ _). vm_compute in R. subst R. cbv iota beta.
    split; [reflexivity|]. split; [reflexivity|]. split; [reflexivity|].
    intros (c & k & Hc & Hk & Hle).
    vm_compute in Hc, Hk. inversion Hc; inversion Hk; subst. lia.
Qed.

(** * Further properties of the operations *)

(** ** Blocks cut in pieces *)

Section Pieces.

Lemma take_app_exact (p q : Mem.block) : Mem.take (Mem.blen p) (p ++ q) = p.
Proof.
  unfold Mem.take, Mem.blen. rewrite Nat2Z.id, firstn_app, Nat.sub_diag, firstn_all.
  simpl. apply app_nil_r.
Qed.

Lemma drop_app_exact (p q : Mem.block) : Mem.drop (Mem.blen p) (p ++ q) = q.
Proof.
  unfold Mem.drop, Mem.blen. rewrite Nat2Z.id, skipn_app, Nat.sub_diag, skipn_all.
  reflexivity.
Qed.

Lemma take_app_more (p q : Mem.block) (k : Z) :
  0 <= k -> Mem.take (Mem.blen p + k) (p ++ q) = p ++ Mem.take k q.
Proof.
  intros Hk. unfold Mem.take, Mem.blen.
  replace (Z.to_nat (Z.of_nat (List.length p) + k))
    with (List.length p + Z.to_nat k)%nat by lia.
  apply firstn_app_2.
Qed.

Lemma drop_app_more (p q : Mem.block) (k : Z) :
  0 <= k -> Mem.drop (Mem.blen p + k) (p ++ q) = Mem.drop k q.
Proof.
  intros Hk. unfold Mem.drop, Mem.blen.
  replace (Z.to_nat (Z.of_nat (List.length p) + k))
    with (List.length p + Z.to_nat k)%nat by lia.
  rewrite skipn_app, skipn_all2 by lia.
  replace (List.length p + Z.to_nat k - List.length p)%nat with (Z.to_nat k) by lia.
  reflexivity.
Qed.

Lemma take_drop_id (n : Z) (b : Mem.block) : Mem.take n b ++ Mem.drop n b = b.
Proof. apply firstn_skipn. Qed.

Lemma take_all (n : Z) (b : Mem.block) : Mem.blen b <= n -> Mem.take n b = b.
Proof. unfold Mem.take, Mem.blen. intros H. apply firstn_all2. lia. Qed.

Lemma drop_zero (b : Mem.block) : Mem.drop 0 b = b.
Proof. reflexivity. Qed.


(** Storing over the middle piece of a block. *)
Lemma store_middle (p q r bs : Mem.block) :
  Mem.blen bs = Mem.blen q ->
  Mem.store (p ++ q ++ r) (Mem.blen p) bs = Some (p ++ bs ++ r).
Proof.
  intros Hl. unfold Mem.store.
  pose proof (blen_nonneg p). pose proof (blen_nonneg r).
  rewrite !blen_app, Hl.
  destruct (Z.leb_spec 0 (Mem.blen p)); [|lia].
  destruct (Z.leb_spec (Mem.blen p + Mem.blen q) (Mem.blen p + (Mem.blen q + Mem.blen r)));
    [|lia].
  cbn [andb]. rewrite take_app_exact.
  rewrite (drop_app_more p (q ++ r)) by apply blen_nonneg.
  rewrite drop_app_exact. reflexivity.
Qed.

(** Loading the middle piece of a block. *)
Lemma load_middle (p q r : Mem.block) :
  Mem.load (p ++ q ++ r) (Mem.blen p) (Mem.blen q) = Some q.
Proof.
  unfold Mem.load.
  pose proof (blen_nonneg p). pose proof (blen_nonneg q). pose proof (blen_nonneg r).
  rewrite !blen_app.
  destruct (Z.leb_spec 0 (Mem.blen p)); [|lia].
  destruct (Z.leb_spec 0 (Mem.blen q)); [|lia].
  destruct (Z.leb_spec (Mem.blen p + Mem.blen q) (Mem.blen p + (Mem.blen q + Mem.blen r)));
    [|lia].
  cbn [andb]. rewrite drop_app_exact, take_app_exact. reflexivity.
Qed.

(** Every block is its three pieces around a range. *)
Lemma split3 (b : Mem.block) (off n : Z) :
  0 <= off -> 0 <= n -> off + n <= Mem.blen b ->
  b = Mem.take off b ++ Mem.take n (Mem.drop off b) ++ Mem.drop (off + n) b /\
  Mem.blen (Mem.take off b) = off /\
  Mem.blen (Mem.take n (Mem.drop off b)) = n.
Proof.
  intros H0 H1 H2. split; [|split].
  - rewrite <- (take_drop_id off b) at 1. f_equal.
    rewrite <- (take_drop_id n (Mem.drop off b)) at 1. f_equal.
    unfold Mem.drop. rewrite skipn_skipn. f_equal. lia.
  - apply blen_take. lia.
  - apply blen_take. rewrite blen_drop; lia.
Qed.

End Pieces.

(** ** The copies, computed *)

Section Copies.

Lemma memmove_exact (b : Mem.block) (dst src n : Z) :
  0 <= dst -> 0 <= src -> 0 <= n ->
  dst + n <= Mem.blen b -> src + n <= Mem.blen b ->
  Mem.memmove b dst src n =
  Some (Mem.take dst b ++ Mem.take n (Mem.drop src b) ++ Mem.drop (dst + n) b).
Proof.
  intros Hd Hs Hn Hdn Hsn. unfold Mem.memmove, Mem.load.
  destruct (Z.leb_spec 0 src); [|lia].
  destruct (Z.leb_spec 0 n); [|lia].
  destruct (Z.leb_spec (src + n) (Mem.blen b)); [|lia].
  cbn [andb]. unfold Mem.store.
  rewrite blen_take by (rewrite blen_drop; lia).
  destruct (Z.leb_spec 0 dst); [|lia].
  destruct (Z.leb_spec (dst + n) (Mem.blen b)); [|lia].
  reflexivity.
Qed.

Lemma memcpy_exact (b : Mem.block) (dst : Z) (s : list byte) (n : Z) :
  0 <= dst -> 0 <= n <= Mem.blen s -> dst + n <= Mem.blen b ->
  Mem.memcpy b dst s n =
  Some (Mem.take dst b ++ Mem.take n s ++ Mem.drop (dst + n) b).
Proof.
  intros Hd Hn Hdn. unfold Mem.memcpy.
  destruct (Z.leb_spec n (Mem.blen s)); [|lia].
  unfold Mem.store. rewrite blen_take by lia.
  destruct (Z.leb_spec 0 dst); [|lia].
  destruct (Z.leb_spec (dst + n) (Mem.blen b)); [|lia].
  reflexivity.
Qed.

Lemma take_take_app (n m : Z) (b y : Mem.block) :
  0 <= n <= m -> m <= Mem.blen b -> Mem.take n (Mem.take m b ++ y) = Mem.take n b.
Proof.
  intros Hn Hm. unfold Mem.take, Mem.blen in *.
  rewrite firstn_app, firstn_firstn, length_firstn.
  replace (Z.to_nat n - Nat.min (Z.to_nat m) (List.length b))%nat with 0%nat by lia.
  replace (Nat.min (Z.to_nat n) (Z.to_nat m)) with (Z.to_nat n) by lia.
  simpl. apply app_nil_r.
Qed.

Lemma drop_take_app (m : Z) (b y : Mem.block) :
  0 <= m <= Mem.blen b -> Mem.drop m (Mem.take m b ++ y) = y.
Proof.
  intros Hm. rewrite <- (blen_take m b Hm) at 1. apply drop_app_exact.
Qed.

Lemma drop_drop (n m : Z) (b : Mem.block) :
  0 <= n -> 0 <= m -> Mem.drop n (Mem.drop m b) = Mem.drop (m + n) b.
Proof.
  intros Hn Hm. unfold Mem.drop. rewrite skipn_skipn. f_equal. lia.
Qed.

(** [vector_insert], computed: when the bound check passes and the block
    the check sees has room, the outcome and the new block are these. *)
Lemma insert_exact (a : Mem.answer) (v : vector) (src : list byte) (index : Z)
      (b1 : Mem.block) :
  is_size (iterator v) ->
  data (grown a v) = Some b1 ->
  size_mul index (to_size (typeSize v)) <= iterator v ->
  iterator v + to_size (typeSize v) <= Mem.blen b1 ->
  Mem.blen b1 <= SIZE_MAX ->
  to_size (typeSize v) <= Mem.blen src ->
  vector_insert a v src index =
  mkoutcome true
    (mkvector (typeSize v) (length (grown a v))
       (iterator v + to_size (typeSize v))
       (Some (Mem.take (size_mul index (to_size (typeSize v))) b1
              ++ Mem.take (to_size (typeSize v)) src
              ++ Mem.take (iterator v - size_mul index (to_size (typeSize v)))
                          (Mem.drop (size_mul index (to_size (typeSize v))) b1)
              ++ Mem.drop (iterator v + to_size (typeSize v)) b1)))
    true.
Proof.
  intros Hit D1 Hle Hroom Hmax Hsrc.
  unfold vector_insert. fold (grown a v).
  destruct (grown_fields a v) as (Gts & Git).
  set (g := grown a v) in *. rewrite Gts, Git.
  set (ts := to_size (typeSize v)) in *.
  set (bi := size_mul index ts) in *.
  assert (Hts : is_size ts) by apply wrap_range.
  assert (Hbi : is_size bi) by apply wrap_range.
  unfold is_size in Hts, Hbi, Hit.
  unfold addr_of_data_is_null. cbn [orb].
  destruct (Z.ltb_spec bi 0); [lia|].
  rewrite Z.gtb_ltb. destruct (Z.ltb_spec (iterator v) bi); [lia|]. cbn [orb].
  assert (Hadd : size_add bi ts = bi + ts).
  { unfold size_add. apply wrap_small. lia. }
  assert (Hsub : size_sub (iterator v) bi = iterator v - bi).
  { apply size_sub_le; unfold is_size; lia. }
  assert (Hnew : size_add (iterator v) ts = iterator v + ts).
  { unfold size_add. apply wrap_small. lia. }
  rewrite Hadd, Hsub.
  unfold on_buffer. rewrite D1. rewrite memmove_exact by lia.
  cbn [data set_data typeSize iterator length].
  match goal with |- context [Mem.memcpy ?b2 bi src ?n] =>
    assert (Hcp : Mem.memcpy b2 bi src n =
                  Some (Mem.take bi b2 ++ Mem.take n src ++ Mem.drop (bi + n) b2)) end.
  { rewrite Gts. fold ts. apply memcpy_exact; try lia.
    rewrite !blen_app, blen_take, blen_take, blen_drop; try lia.
    rewrite blen_drop; lia. }
  rewrite Hcp. rewrite Gts. fold ts.
  unfold set_iterator, set_data. cbn [typeSize length iterator data].
  rewrite Git, Gts. fold ts. rewrite Hnew.
  rewrite take_take_app by lia.
  rewrite drop_take_app by lia.
  replace (bi + ts + (iterator v - bi)) with (iterator v + ts) by lia.
  reflexivity.
Qed.

End Copies.

(** ** Insertion: contents, success and growth *)

Section InsertMore.

Lemma WF_ok (v : vector) : WF v -> vector_ok v.
Proof.
  intros ((Ht & Hl & Hi & _) & b & Hd & Hb).
  unfold vector_ok. rewrite Hd, Hb.
  split; [|split; [exact Hl | split; [exact Hi | apply is_size_small; exact Hl]]].
  unfold is_int32, INT32_MIN. lia.
Qed.

Lemma grown_WF (a : Mem.answer) (v : vector) :
  WF v ->
  iterator v < length v \/
    (a <> None /\ 0 < length v /\ 2 * length v * typeSize v <= SIZE_MAX) ->
  WF (grown a v) /\ iterator v + typeSize v <= length (grown a v).
Proof.
  intros (HI & b & Hd & Hb) Hc.
  destruct (grown_Inv a v HI Hc) as (Hg & Hroom).
  split; [|exact Hroom]. split; [exact Hg|].
  pose proof HI as (Ht & Hl & Hi & _ & _ & Hle).
  destruct (Z.eq_dec (iterator v) (length v)) as [Hfull|Hnot].
  - destruct Hc as [Hlt|(Ha & Hpos & Hfit)]; [lia|].
    destruct a as [junk|]; [|congruence].
    destruct (grown_full_length junk v Hl (proj1 Ht) Hfull Hfit) as (Hlen & b1 & D1 & Hb1).
    exists b1. split; [exact D1 | congruence].
  - assert (E : grown a v = v).
    { unfold grown. destruct (Z.eqb_spec (iterator v) (length v)); [lia|reflexivity]. }
    rewrite E. exists b. auto.
Qed.

(** The statement of [insert_contents], for the proofs that build on it. *)
Lemma insert_contents_shared (a : Mem.answer) (v : vector) (src : list byte) (index : Z) :
  vector_ok v ->
  ret (vector_insert a v src index) = true ->
  in_bounds (vector_insert a v src index) = true ->
  let ts := to_size (typeSize v) in
  let bi := size_mul index ts in
  exists b1 : Mem.block,
    data (grown a v) = Some b1 /\
    iterator (vec (vector_insert a v src index)) = iterator v + ts /\
    data (vec (vector_insert a v src index)) =
      Some (Mem.take bi b1 ++ Mem.take ts src
            ++ Mem.take (iterator v - bi) (Mem.drop bi b1)
            ++ Mem.drop (iterator v + ts) b1).
Proof.
  intros Hok Hret Hin ts bi.
  destruct (insert_room a v src index Hok Hret Hin) as (b1 & D1 & Hroom).
  destruct (insert_inversion a v src index Hret Hin)
    as (b1' & b2 & b3 & D1' & Hle & _ & M2 & _).
  rewrite D1 in D1'. inversion D1'; subst b1'. clear D1'.
  fold ts in Hroom, Hle, M2. fold bi in Hle, M2.
  assert (Hts : is_size ts) by apply wrap_range. unfold is_size in Hts.
  apply memcpy_bounds in M2; [|lia]. destruct M2 as (_ & _ & Hsrc & _).
  destruct (grown_ok a v Hok) as (_ & _ & _ & Hmax). rewrite D1 in Hmax.
  destruct Hok as (_ & _ & Hit & _).
  exists b1. split; [exact D1|].
  rewrite (insert_exact a v src index b1 Hit D1 Hle Hroom Hmax Hsrc).
  split; reflexivity.
Qed.

(** X9: the block after a successful, in-bounds [vector_insert]: the bytes
    before the slot are kept, the element follows, the bytes that were
    between the slot and the end of the live range come next, one element
    to the right, and the rest of the block is kept. *)
Theorem insert_contents (a : Mem.answer) (v : vector) (src : list byte) (index : Z) :
  vector_ok v ->
  ret (vector_insert a v src index) = true ->
  in_bounds (vector_insert a v src index) = true ->
  let ts := to_size (typeSize v) in
  let bi := size_mul index ts in
  exists b1 : Mem.block,
    data (grown a v) = Some b1 /\
    iterator (vec (vector_insert a v src index)) = iterator v + ts /\
    data (vec (vector_insert a v src index)) =
      Some (Mem.take bi b1 ++ Mem.take ts src
            ++ Mem.take (iterator v - bi) (Mem.drop bi b1)
            ++ Mem.drop (iterator v + ts) b1).
Proof. exact (insert_contents_shared a v src index). Qed.

Lemma insert_contents_witness :
  exists b1 : Mem.block,
    data (grown None Scenario.w1) = Some b1 /\
    iterator Scenario.w2 = 4 + 4 /\
    data Scenario.w2 =
      Some (Mem.take 4 b1 ++ Mem.take 4 (Scenario.le32 x14)
            ++ Mem.take (4 - 4) (Mem.drop 4 b1) ++ Mem.drop (4 + 4) b1).
Proof.
  apply (insert_contents None Scenario.w1 (Scenario.le32 x14) 1).
  - unfold vector_ok. vm_compute. repeat split; discriminate.
  - reflexivity.
  - reflexivity.
Defined.

(** A safe insert keeps the vector well formed and stays in the block. *)
Lemma insert_WF (a : Mem.answer) (v : vector) (src : list byte) (index : Z) :
  WF v -> safe v (OpInsert a src index) ->
  WF (vec (vector_insert a v src index)) /\
  in_bounds (vector_insert a v src index) = true /\
  ret (vector_insert a v src index)
    = (size_mul index (to_size (typeSize v)) <=? iterator v).
Proof.
  intros Hwf (Hsrc & Hc).
  destruct (grown_WF a v Hwf Hc) as (Hg & Hroom).
  pose proof Hwf as (HI & _).
  pose proof (Inv_to_size v HI) as Hts.
  pose proof (insert_Inv a v src index HI Hc) as HI'.
  set (ts := to_size (typeSize v)) in *.
  set (bi := size_mul index ts) in *.
  destruct (Z.leb_spec bi (iterator v)) as [Hle|Hgt].
  - destruct Hg as (HgI & b1 & D1 & Hb1).
    pose proof HgI as (_ & Hgl & _).
    pose proof HI as (Ht & _ & Hit & _).
    assert (Hmax : Mem.blen b1 <= SIZE_MAX) by (rewrite Hb1; apply is_size_small; exact Hgl).
    assert (H1 : iterator v + ts <= Mem.blen b1) by lia.
    assert (H2 : ts <= Mem.blen src) by lia.
    pose proof (insert_exact a v src index b1 Hit D1 Hle H1 Hmax H2) as E.
    fold ts in E. fold bi in E. rewrite E in HI' |- *.
    cbn [vec in_bounds ret]. split; [|split; reflexivity].
    split; [exact HI'|].
    eexists. split; [reflexivity|]. cbn [length].
    assert (Hbi : is_size bi) by apply wrap_range. unfold is_size in Hbi, Hit.
    assert (L1 : Mem.blen (Mem.take bi b1) = bi) by (apply blen_take; lia).
    assert (L2 : Mem.blen (Mem.take ts src) = ts) by (apply blen_take; lia).
    assert (L3 : Mem.blen (Mem.take (iterator v - bi) (Mem.drop bi b1))
                 = iterator v - bi)
      by (apply blen_take; rewrite blen_drop; lia).
    assert (L4 : Mem.blen (Mem.drop (iterator v + ts) b1)
                 = Mem.blen b1 - (iterator v + ts))
      by (apply blen_drop; lia).
    rewrite !blen_app, L1, L2, L3, L4. lia.
  - rewrite insert_rejects by (fold ts; fold bi; lia). cbn [vec in_bounds ret]. auto.
Qed.

End InsertMore.

Section InsertGuarantees.

Lemma insert_length (a : Mem.answer) (v : vector) (src : list byte) (index : Z) :
  length (vec (vector_insert a v src index)) = length (grown a v).
Proof.
  set (bi := size_mul index (to_size (typeSize v))).
  destruct (Z.le_gt_cases bi (iterator v)) as [Hle|Hgt].
  - assert (H0 : 0 <= bi) by apply (wrap_range (index * to_size (typeSize v))).
    destruct (insert_accepts a v src index (conj H0 Hle)) as (_ & _ & R3 & _).
    exact R3.
  - rewrite insert_rejects by (fold bi; lia). reflexivity.
Qed.

(** X10: below capacity an insert at an index up to the count cannot fail: on
    a well-formed vector that is not full, with a source of at least
    [typeSize] bytes, the call returns true, stays in the block, raises the
    count by one, leaves the capacity alone and keeps the vector well
    formed. *)
Theorem insert_below_capacity (a : Mem.answer) (v : vector) (src : list byte)
        (index c : Z) :
  WF v -> iterator v < length v -> typeSize v <= Mem.blen src ->
  vector_count v = Some c -> 0 <= index <= c ->
  let r := vector_insert a v src index in
  ret r = true /\ in_bounds r = true /\
  vector_count (vec r) = Some (c + 1) /\
  vector_maxsize (vec r) = vector_maxsize v /\
  WF (vec r).
Proof.
  intros Hwf Hroom Hsrc Hc Hidx r.
  pose proof Hwf as (HI & _). pose proof HI as (Ht & Hl & Hi & _).
  destruct (count_mul_le v c (WF_ok v Hwf) (proj1 Ht) Hc) as (Hts & Hcdef & Hle & _).
  assert (Hmono : 0 <= index * typeSize v <= c * typeSize v).
  { split; [apply Z.mul_nonneg_nonneg; lia|].
    apply Z.mul_le_mono_nonneg_r; lia. }
  assert (Hbi : size_mul index (to_size (typeSize v)) = index * typeSize v).
  { apply size_mul_exact. unfold is_size, SIZE_MAX in *. lia. }
  destruct (insert_WF a v src index Hwf) as (W & B & R).
  { split; [exact Hsrc | left; exact Hroom]. }
  fold r in W, B, R.
  assert (Hacc : 0 <= size_mul index (to_size (typeSize v)) <= iterator v)
    by (rewrite Hbi; lia).
  destruct (insert_accepts a v src index Hacc) as (_ & R2 & R3 & R4).
  fold r in R2, R3, R4.
  assert (Hg : grown a v = v).
  { unfold grown. destruct (Z.eqb_spec (iterator v) (length v)); [lia|reflexivity]. }
  destruct (grown_WF a v Hwf (or_introl Hroom)) as (_ & Hroom2).
  rewrite Hg in R3, Hroom2. rewrite Hts in R4.
  unfold size_add in R4. rewrite wrap_small in R4
    by (unfold is_size, SIZE_MAX in *; lia).
  split; [|split; [exact B|split; [|split; [|exact W]]]].
  - rewrite R. apply Z.leb_le. lia.
  - unfold vector_count. rewrite R2, R4, Hts, size_div_pos by lia. f_equal.
    rewrite Hcdef.
    replace (iterator v + typeSize v) with (iterator v + 1 * typeSize v) by lia.
    rewrite Z.div_add by lia. reflexivity.
  - unfold vector_maxsize. rewrite R2, R3. reflexivity.
Qed.

Lemma insert_below_capacity_witness :
  let r := vector_insert None Scenario.w2 (Scenario.le32 x1e) 1 in
  ret r = true /\ in_bounds r = true /\
  vector_count (vec r) = Some (2 + 1) /\
  vector_maxsize (vec r) = vector_maxsize Scenario.w2 /\
  WF (vec r).
Proof.
  apply (insert_below_capacity None Scenario.w2 (Scenario.le32 x1e) 1 2).
  - split.
    + unfold Inv. vm_compute. repeat split; discriminate.
    + eexists. split; reflexivity.
  - reflexivity.
  - vm_compute. discriminate.
  - reflexivity.
  - split; discriminate.
Defined.

(** X11: the growth step of [vector_insert] runs before the bound check and
    multiplies the capacity by [2 * typeSize]: on a full, well-formed,
    non-empty vector whose reallocation succeeds, the capacity after the
    call is [2 * typeSize] times the old one whether the index is accepted
    or refused; the call stays in the block and returns true exactly when
    [index * typeSize <= iterator]. *)
Theorem insert_full_growth (junk : nat -> byte) (v : vector) (src : list byte)
        (index k : Z) :
  WF v -> iterator v = length v -> 0 < length v ->
  2 * length v * typeSize v <= SIZE_MAX ->
  typeSize v <= Mem.blen src ->
  vector_maxsize v = Some k ->
  let r := vector_insert (Some junk) v src index in
  vector_maxsize (vec r) = Some (2 * typeSize v * k) /\
  in_bounds r = true /\
  ret r = (size_mul index (to_size (typeSize v)) <=? iterator v) /\
  WF (vec r).
Proof.
  intros Hwf Hfull Hpos Hfit Hsrc Hk r.
  pose proof Hwf as (HI & _). pose proof HI as (Ht & Hl & Hi & Hml & _).
  pose proof (Inv_to_size v HI) as Hts.
  destruct (insert_WF (Some junk) v src index Hwf) as (W & B & R).
  { split; [exact Hsrc | right]. split; [discriminate | split; assumption]. }
  fold r in W, B, R.
  split; [|split; [exact B | split; [exact R | exact W]]].
  pose proof (insert_length (Some junk) v src index) as L. fold r in L.
  destruct (grown_full_length junk v Hl (proj1 Ht) Hfull Hfit) as (G & _).
  rewrite G in L.
  pose proof W as ((Ht' & _) & _).
  assert (T : typeSize (vec r) = typeSize v).
  { subst r. set (bi := size_mul index (to_size (typeSize v))).
    destruct (Z.le_gt_cases bi (iterator v)) as [Hle|Hgt].
    - assert (H0 : 0 <= bi) by apply (wrap_range (index * to_size (typeSize v))).
      destruct (insert_accepts (Some junk) v src index (conj H0 Hle)) as (_ & R2 & _).
      exact R2.
    - rewrite insert_rejects by (fold bi; lia). apply grown_fields. }
  unfold vector_maxsize in *. rewrite T, L, Hts in *.
  rewrite size_div_pos in * by lia. inversion Hk as [Hk']. f_equal.
  pose proof (mod0_mul _ _ (proj1 Ht) Hml) as El.
  rewrite El at 1.
  replace (2 * (length v / typeSize v * typeSize v) * typeSize v)
    with ((2 * typeSize v * (length v / typeSize v)) * typeSize v) by lia.
  apply Z.div_mul. lia.
Qed.

Lemma insert_full_growth_witness :
  let r := vector_insert (Some Scenario.junk) Scenario.w4 (Scenario.le32 x32) 9 in
  vector_maxsize (vec r) = Some (2 * 4 * 4) /\
  in_bounds r = true /\
  ret r = (size_mul 9 (to_size 4) <=? 16) /\
  WF (vec r).
Proof.
  apply (insert_full_growth Scenario.junk Scenario.w4 (Scenario.le32 x32) 9 4).
  - split.
    + unfold Inv. vm_compute. repeat split; discriminate.
    + eexists. split; reflexivity.
  - reflexivity.
  - reflexivity.
  - vm_compute. discriminate.
  - vm_compute. discriminate.
  - reflexivity.
Defined.

End InsertGuarantees.

(** ** Removal: contents, and removal after insertion *)

Section RemoveMore.

(** [vector_remove], computed, for a slot that lies inside the live range. *)
Lemma remove_exact (v : vector) (index : Z) (b : Mem.block) :
  0 < typeSize v <= INT32_MAX -> is_size (iterator v) ->
  data v = Some b ->
  size_mul index (typeSize v) + typeSize v <= iterator v ->
  iterator v <= Mem.blen b ->
  vector_remove v index =
  mkoutcome true
    (mkvector (typeSize v) (length v) (iterator v - typeSize v)
       (Some (Mem.take (size_mul index (typeSize v)) b
              ++ Mem.take (iterator v - typeSize v - size_mul index (typeSize v))
                          (Mem.drop (size_mul index (typeSize v) + typeSize v) b)
              ++ Mem.drop (iterator v - typeSize v) b)))
    true.
Proof.
  intros Ht Hit Hd Hslot Hblk.
  pose proof (to_size_pos _ Ht) as Hts.
  unfold vector_remove. rewrite Hts, Hd.
  set (bi := size_mul index (typeSize v)) in *.
  assert (Hbi : is_size bi) by apply wrap_range.
  unfold is_size in Hbi, Hit.
  cbn [is_null orb].
  destruct (Z.ltb_spec bi 0); [lia|].
  rewrite (Z.gtb_ltb bi). destruct (Z.ltb_spec (iterator v) bi); [lia|].
  rewrite Z.gtb_ltb. destruct (Z.ltb_spec 0 (iterator v)); [|lia].
  cbn [orb]. rewrite Hts.
  rewrite (size_sub_le (iterator v)) by (unfold is_size; lia).
  unfold on_buffer. cbn [data set_iterator typeSize iterator]. rewrite Hd.
  rewrite size_sub_le by (unfold is_size; lia).
  rewrite memmove_exact by lia.
  unfold set_data. cbn [typeSize length iterator].
  replace (bi + (iterator v - typeSize v - bi)) with (iterator v - typeSize v) by lia.
  reflexivity.
Qed.

(** The statement of [remove_contents], for the proofs that build on it. *)
Lemma remove_contents_shared (v : vector) (index c : Z) (b : Mem.block) :
  Inv v -> data v = Some b -> iterator v <= Mem.blen b ->
  vector_count v = Some c -> 0 <= index < c ->
  let bi := index * typeSize v in
  vector_remove v index =
  mkoutcome true
    (mkvector (typeSize v) (length v) (iterator v - typeSize v)
       (Some (Mem.take bi b
              ++ Mem.take (iterator v - typeSize v - bi) (Mem.drop (bi + typeSize v) b)
              ++ Mem.drop (iterator v - typeSize v) b)))
    true.
Proof.
  intros HI Hd Hblk Hc Hidx bi.
  pose proof HI as (Ht & Hl & Hi & _ & Hmi & _).
  pose proof (Inv_to_size v HI) as Hts.
  unfold vector_count in Hc. rewrite Hts, size_div_pos in Hc by lia.
  inversion Hc as [Hc']. clear Hc.
  pose proof (mod0_mul _ _ (proj1 Ht) Hmi) as Ei. rewrite Hc' in Ei.
  assert (Hmono : 0 <= index * typeSize v /\ (index + 1) * typeSize v <= c * typeSize v).
  { split; [apply Z.mul_nonneg_nonneg; lia|].
    apply Z.mul_le_mono_nonneg_r; lia. }
  assert (Hbi : size_mul index (typeSize v) = bi).
  { unfold bi. rewrite <- Hts at 1. apply size_mul_exact.
    unfold is_size, SIZE_MAX in *. lia. }
  rewrite <- Hbi. apply remove_exact; try assumption. rewrite Hbi. unfold bi. lia.
Qed.

(** X15: the block after a removal of an existing element ([index] below the
    count): the bytes before the slot are kept, the live bytes after the
    slot move one element to the left, and from the new end of the live
    range on the block is untouched (the last element is still there,
    outside the live range). *)
Theorem remove_contents (v : vector) (index c : Z) (b : Mem.block) :
  Inv v -> data v = Some b -> iterator v <= Mem.blen b ->
  vector_count v = Some c -> 0 <= index < c ->
  let bi := index * typeSize v in
  vector_remove v index =
  mkoutcome true
    (mkvector (typeSize v) (length v) (iterator v - typeSize v)
       (Some (Mem.take bi b
              ++ Mem.take (iterator v - typeSize v - bi) (Mem.drop (bi + typeSize v) b)
              ++ Mem.drop (iterator v - typeSize v) b)))
    true.
Proof. exact (remove_contents_shared v index c b). Qed.

Lemma remove_contents_witness :
  vector_remove Scenario.w4 1 =
  mkoutcome true
    (mkvector 4 16 (16 - 4)
       (Some (Scenario.le32 x0a ++ (Scenario.le32 x1e ++ Scenario.le32 x28)
              ++ Scenario.le32 x28)))
    true.
Proof.
  apply (remove_contents Scenario.w4 1 4
           (Scenario.le32 x0a ++ Scenario.le32 x14 ++ Scenario.le32 x1e
            ++ Scenario.le32 x28)).
  - unfold Inv. vm_compute. repeat split; discriminate.
  - reflexivity.
  - vm_compute. discriminate.
  - reflexivity.
  - split; [discriminate | reflexivity].
Defined.

Lemma take_app_pieces (p q r : Mem.block) :
  Mem.take (Mem.blen p + Mem.blen q) (p ++ q ++ r) = p ++ q.
Proof.
  rewrite take_app_more by apply blen_nonneg.
  rewrite take_app_exact. reflexivity.
Qed.

(** X16: removing what was just inserted restores the live range: after a
    successful, in-bounds [vector_insert] at [index] on a vector with a
    positive element size, [vector_remove] at the same [index] returns
    true, stays in the block, puts [iterator] back, and the bytes of the
    live range are those the insert found. *)
Theorem insert_then_remove (a : Mem.answer) (v : vector) (src : list byte) (index : Z) :
  vector_ok v -> 0 < typeSize v ->
  ret (vector_insert a v src index) = true ->
  in_bounds (vector_insert a v src index) = true ->
  let r := vector_remove (vec (vector_insert a v src index)) index in
  ret r = true /\ in_bounds r = true /\
  iterator (vec r) = iterator v /\
  length (vec r) = length (grown a v) /\
  exists b1 : Mem.block,
    data (grown a v) = Some b1 /\
    read_at (vec r) 0 (iterator v) = Some (Mem.take (iterator v) b1).
Proof.
  intros Hok Hpos Hret Hin r.
  destruct (insert_contents_shared a v src index Hok Hret Hin) as (b1 & D1 & Hit' & Hd').
  destruct (insert_room a v src index Hok Hret Hin) as (b1' & D1' & Hroom).
  rewrite D1 in D1'. inversion D1'; subst b1'. clear D1'.
  destruct (insert_inversion a v src index Hret Hin)
    as (d1 & d2 & d3 & _ & Hle & _ & _ & Hv).
  pose proof Hok as (Ht & _ & Hi & _).
  assert (Htp : 0 < typeSize v <= INT32_MAX) by (unfold is_int32 in Ht; lia).
  pose proof (to_size_pos _ Htp) as Hts. rewrite Hts in *.
  set (bi := size_mul index (typeSize v)) in *.
  assert (Hbi : is_size bi) by apply wrap_range.
  unfold is_size in Hbi, Hi.
  set (w := vec (vector_insert a v src index)) in *.
  assert (Tw : typeSize w = typeSize v) by (rewrite Hv; reflexivity).
  assert (Lw : length w = length (grown a v)) by (rewrite Hv; reflexivity).
  destruct (split3 b1 bi (iterator v - bi)) as (Eb & LP & LS); try lia.
  set (P := Mem.take bi b1) in *.
  set (S := Mem.take (iterator v - bi) (Mem.drop bi b1)) in *.
  set (E := Mem.take (typeSize v) src) in *.
  set (T := Mem.drop (iterator v + typeSize v) b1) in *.
  assert (LE : Mem.blen E = typeSize v).
  { destruct (insert_inversion a v src index Hret Hin)
      as (c1 & c2 & c3 & _ & _ & _ & M2 & _).
    rewrite Hts in M2. apply memcpy_bounds in M2; [|lia].
    apply blen_take. lia. }
  pose proof (blen_nonneg T) as LT.
  assert (Hexact :
    vector_remove w index =
    mkoutcome true
      (mkvector (typeSize w) (length w) (iterator w - typeSize w)
         (Some (Mem.take (size_mul index (typeSize w)) (P ++ E ++ S ++ T)
                ++ Mem.take (iterator w - typeSize w - size_mul index (typeSize w))
                     (Mem.drop (size_mul index (typeSize w) + typeSize w)
                               (P ++ E ++ S ++ T))
                ++ Mem.drop (iterator w - typeSize w) (P ++ E ++ S ++ T))))
      true).
  { destruct (grown_ok a v Hok) as (_ & _ & _ & Hmax).
    rewrite D1 in Hmax. unfold SIZE_MAX in Hmax.
    apply remove_exact; rewrite ?Tw, ?Hit'; try assumption;
      fold bi; rewrite ?blen_app, ?LP, ?LE, ?LS; unfold is_size; lia. }
  rewrite Tw, Hit' in Hexact. fold bi in Hexact.
  replace (iterator v + typeSize v - typeSize v) with (iterator v) in Hexact by lia.
  subst r. rewrite Hexact. cbn [ret in_bounds vec iterator length].
  split; [reflexivity|]. split; [reflexivity|]. split; [reflexivity|].
  split; [exact Lw|].
  exists b1. split; [exact D1|].
  unfold read_at. cbn [data].
  rewrite <- LP at 1. rewrite take_app_exact.
  replace (bi + typeSize v) with (Mem.blen P + Mem.blen E) by lia.
  replace (P ++ E ++ S ++ T) with ((P ++ E) ++ S ++ T) by (rewrite <- app_assoc; reflexivity).
  rewrite <- blen_app, drop_app_exact.
  rewrite <- LS at 1. rewrite take_app_exact.
  set (rest := Mem.drop (iterator v) ((P ++ E) ++ S ++ T)).
  replace (iterator v) with (Mem.blen P + Mem.blen S) at 1 by lia.
  assert (Hload : Mem.load (P ++ S ++ rest) 0 (Mem.blen P + Mem.blen S)
                  = Some (P ++ S)).
  { pose proof (load_middle [] (P ++ S) rest) as Hm.
    cbn [app] in Hm. change (Mem.blen []) with 0 in Hm.
    rewrite blen_app, <- app_assoc in Hm. exact Hm. }
  rewrite Hload. f_equal.
  transitivity (Mem.take (Mem.blen P + Mem.blen S)
                  (P ++ S ++ Mem.drop (bi + (iterator v - bi)) b1)).
  - symmetry. apply take_app_pieces.
  - rewrite <- Eb, LP, LS. f_equal. lia.
Qed.

Lemma insert_then_remove_witness :
  let r := vector_remove Scenario.w2 1 in
  ret r = true /\ in_bounds r = true /\
  iterator (vec r) = iterator Scenario.w1 /\
  length (vec r) = length (grown None Scenario.w1) /\
  exists b1 : Mem.block,
    data (grown None Scenario.w1) = Some b1 /\
    read_at (vec r) 0 (iterator Scenario.w1) = Some (Mem.take (iterator Scenario.w1) b1).
Proof.
  apply (insert_then_remove None Scenario.w1 (Scenario.le32 x14) 1).
  - unfold vector_ok. vm_compute. repeat split; discriminate.
  - reflexivity.
  - reflexivity.
  - reflexivity.
Defined.

End RemoveMore.

(** ** Replacement *)

Section Replace.

Lemma count_bounds (v : vector) (c index : Z) :
  Inv v -> vector_count v = Some c -> 0 <= index -> index * typeSize v <= SIZE_MAX ->
  size_mul index (to_size (typeSize v)) = index * typeSize v /\
  iterator v = c * typeSize v /\ 0 <= c /\
  (index < c -> index * typeSize v + typeSize v <= iterator v) /\
  (c <= index -> iterator v <= index * typeSize v).
Proof.
  intros HI Hc Hidx Hfit.
  pose proof HI as (Ht & Hl & Hi & _ & Hmi & _).
  pose proof (Inv_to_size v HI) as Hts.
  unfold vector_count in Hc. rewrite Hts, size_div_pos in Hc by lia.
  injection Hc as Hc'.
  pose proof (mod0_mul _ _ (proj1 Ht) Hmi) as Ei. rewrite Hc' in Ei.
  unfold is_size in Hi.
  assert (H0 : 0 <= index * typeSize v) by (apply Z.mul_nonneg_nonneg; lia).
  split; [apply size_mul_exact; lia|].
  split; [exact Ei|]. split; [nia|]. split; intros H.
  - assert ((index + 1) * typeSize v <= c * typeSize v)
      by (apply Z.mul_le_mono_nonneg_r; lia). lia.
  - assert (c * typeSize v <= index * typeSize v)
      by (apply Z.mul_le_mono_nonneg_r; lia). lia.
Qed.




(** X14: [vector_replace_unsafe] checks the index like [vector_replace] but
    copies [byteCount] bytes: with an index below the count and
    [byteCount] bytes that fit in the block and in the source, it returns
    true, stays in the block and overwrites [byteCount] bytes from the slot
    on, across element boundaries and across the end of the live range,
    without moving [iterator]. *)
Theorem replace_unsafe_contents (v : vector) (src : list byte) (index c n : Z)
        (b : Mem.block) :
  Inv v -> data v = Some b ->
  vector_count v = Some c -> 0 <= index < c ->
  0 <= n <= Mem.blen src -> index * typeSize v + n <= Mem.blen b ->
  vector_replace_unsafe v src index n =
  mkoutcome true
    (set_data v (Some (Mem.take (index * typeSize v) b
                       ++ Mem.take n src
                       ++ Mem.drop (index * typeSize v + n) b)))
    true.
Proof.
  intros HI Hd Hc Hidx Hn Hfit.
  pose proof HI as (Ht & _ & Hi & _). unfold is_size in Hi.
  assert (Hfit' : index * typeSize v <= SIZE_MAX).
  { pose proof (Inv_to_size v HI) as Hts.
    unfold vector_count in Hc. rewrite Hts, size_div_pos in Hc by lia.
    inversion Hc as [Hc'].
    assert (index * typeSize v <= c * typeSize v)
      by (apply Z.mul_le_mono_nonneg_r; lia).
    assert (c * typeSize v <= iterator v)
      by (subst c; rewrite Z.mul_comm; apply Z.mul_div_le; lia).
    unfold SIZE_MAX. lia. }
  destruct (count_bounds v c index HI Hc (proj1 Hidx) Hfit') as (Hbi & Ei & Hc0 & Hlt & _).
  specialize (Hlt (proj2 Hidx)).
  assert (H0 : 0 <= index * typeSize v) by (apply Z.mul_nonneg_nonneg; lia).
  unfold vector_replace_unsafe. rewrite Hbi.
  unfold addr_of_data_is_null. cbn [orb].
  destruct (Z.ltb_spec (index * typeSize v) 0); [lia|]. cbn [orb].
  rewrite Z.geb_leb.
  destruct (Z.leb_spec (iterator v) (index * typeSize v)); [lia|].
  unfold on_buffer. rewrite Hd.
  rewrite memcpy_exact by lia. reflexivity.
Qed.

Lemma replace_unsafe_contents_witness :
  vector_replace_unsafe Scenario.w2 (Scenario.le32 x63 ++ Scenario.le32 x64) 1 8 =
  mkoutcome true
    (set_data Scenario.w2
       (Some (Mem.take (1 * 4) (Scenario.le32 x0a ++ Scenario.le32 x14
                                ++ repeat x00 8)
              ++ Mem.take 8 (Scenario.le32 x63 ++ Scenario.le32 x64)
              ++ Mem.drop (1 * 4 + 8) (Scenario.le32 x0a ++ Scenario.le32 x14
                                       ++ repeat x00 8))))
    true.
Proof.
  apply (replace_unsafe_contents Scenario.w2 (Scenario.le32 x63 ++ Scenario.le32 x64) 1 2 8).
  - unfold Inv. vm_compute. repeat split; discriminate.
  - reflexivity.
  - reflexivity.
  - split; [discriminate | reflexivity].
  - vm_compute. split; discriminate.
  - vm_compute. discriminate.
Defined.

End Replace.

(** ** Construction and reallocation *)

Section Construct.

Lemma Inv_getters (v : vector) :
  Inv v ->
  vector_count v = Some (iterator v / typeSize v) /\
  vector_maxsize v = Some (length v / typeSize v).
Proof.
  intros HI. pose proof (Inv_to_size v HI) as Hts. destruct HI as (Ht & _).
  unfold vector_count, vector_maxsize. rewrite Hts, !size_div_pos by lia. auto.
Qed.

(** The statement of [calloc2_reserved], for the proofs that build on it. *)
Lemma calloc2_reserved_shared (ts n : Z) :
  0 < ts <= INT32_MAX -> 0 <= n -> n * ts <= SIZE_MAX ->
  let v := vector_calloc2 true ts n true in
  WF v /\ vector_count v = Some 0 /\ vector_maxsize v = Some n /\
  data v = Some (repeat x00 (Z.to_nat (n * ts))).
Proof.
  intros Hts Hn Hfit v.
  pose proof (vector_calloc2_Inv true ts n true Hts Hn Hfit) as HI. fold v in HI.
  assert (Hn' : to_size (1 * n) = n).
  { unfold to_size. rewrite Z.mul_1_l. apply wrap_small. nia. }
  assert (Hlen : length v = n * ts).
  { unfold v, vector_calloc2. cbn [length]. rewrite Hn'. apply size_mul_exact. nia. }
  assert (Hd : data v = Some (repeat x00 (Z.to_nat (n * ts)))).
  { unfold v, vector_calloc2. cbn [data]. rewrite Hn', (to_size_pos ts Hts).
    unfold Mem.calloc. destruct (Z.leb_spec (n * ts) SIZE_MAX); [reflexivity | lia]. }
  destruct (Inv_getters v HI) as (Gc & Gm).
  split; [|split; [|split; [|exact Hd]]].
  - split; [exact HI|]. eexists. split; [exact Hd|].
    unfold Mem.blen. rewrite repeat_length, Hlen. apply Z2Nat.id.
    apply Z.mul_nonneg_nonneg; lia.
  - rewrite Gc. reflexivity.
  - rewrite Gm, Hlen. change (typeSize v) with ts. f_equal. apply Z.div_mul. lia.
Qed.

(** X1: a reserving constructor whose allocation succeeds gives a
    well-formed, empty vector of the requested capacity over a zeroed
    block. *)
Theorem calloc2_reserved (ts n : Z) :
  0 < ts <= INT32_MAX -> 0 <= n -> n * ts <= SIZE_MAX ->
  let v := vector_calloc2 true ts n true in
  WF v /\ vector_count v = Some 0 /\ vector_maxsize v = Some n /\
  data v = Some (repeat x00 (Z.to_nat (n * ts))).
Proof. exact (calloc2_reserved_shared ts n). Qed.

Lemma calloc2_reserved_witness :
  let v := vector_calloc2 true 4 4 true in
  WF v /\ vector_count v = Some 0 /\ vector_maxsize v = Some 4 /\
  data v = Some (repeat x00 (Z.to_nat (4 * 4))).
Proof.
  apply (calloc2_reserved 4 4).
  - split; [reflexivity | discriminate].
  - discriminate.
  - discriminate.
Defined.



Lemma load_exact (b : Mem.block) (off n : Z) :
  0 <= off -> 0 <= n -> off + n <= Mem.blen b ->
  Mem.load b off n = Some (Mem.take n (Mem.drop off b)).
Proof.
  intros H0 H1 H2. unfold Mem.load.
  destruct (Z.leb_spec 0 off); [|lia].
  destruct (Z.leb_spec 0 n); [|lia].
  destruct (Z.leb_spec (off + n) (Mem.blen b)); [|lia].
  reflexivity.
Qed.

Lemma take_take_app_any (m n : Z) (b y : Mem.block) :
  0 <= m <= n -> m <= Mem.blen b -> Mem.take m (Mem.take n b ++ y) = Mem.take m b.
Proof.
  intros Hm Hb. unfold Mem.take, Mem.blen in *.
  rewrite firstn_app, firstn_firstn, length_firstn.
  replace (Z.to_nat m - Nat.min (Z.to_nat n) (List.length b))%nat with 0%nat by lia.
  replace (Nat.min (Z.to_nat m) (Z.to_nat n)) with (Z.to_nat m) by lia.
  simpl. apply app_nil_r.
Qed.

(** The statement of [realloc_keeps_live], for the proofs that build on it. *)
Lemma realloc_keeps_live_shared (junk : nat -> byte) (v : vector) (n : Z) :
  WF v -> 0 <= n -> iterator v <= n * typeSize v <= SIZE_MAX ->
  let v' := snd (vector_realloc (Some junk) v n) in
  fst (vector_realloc (Some junk) v n) = true /\
  WF v' /\
  vector_maxsize v' = Some n /\
  vector_count v' = vector_count v /\
  read_at v' 0 (iterator v) = read_at v 0 (iterator v).
Proof.
  intros (HI & b & Hd & Hb) Hn (Hlo & Hhi) v'.
  pose proof HI as (Ht & Hl & Hi & _ & _ & Hle). unfold is_size in Hi, Hl.
  assert (Hmul : size_mul n (to_size (typeSize v)) = n * typeSize v)
    by (apply size_mul_exact; lia).
  assert (HI' : Inv v').
  { apply (step_Inv v (OpRealloc (Some junk) n) (mkoutcome true v' true) HI).
    - cbn [benign]. lia.
    - reflexivity. }
  assert (Ev : v' = mkvector (typeSize v) (n * typeSize v) (iterator v)
                      (Mem.realloc (Some junk) (Some b) (n * typeSize v))).
  { unfold v', vector_realloc. rewrite Hmul, Hd. reflexivity. }
  destruct (Inv_getters v' HI') as (Gc' & Gm').
  destruct (Inv_getters v HI) as (Gc & _).
  split; [reflexivity|]. split; [|split; [|split]].
  - split; [exact HI'|]. rewrite Ev. cbn [data length Mem.realloc].
    eexists. split; [reflexivity|].
    apply (realloc_blen junk (Some b)); [lia | reflexivity].
  - rewrite Gm'. rewrite Ev. cbn [length typeSize]. f_equal. apply Z.div_mul. lia.
  - rewrite Gc', Gc. rewrite Ev. reflexivity.
  - unfold read_at. rewrite Hd, Ev. cbn [data Mem.realloc].
    set (fresh := map junk _).
    assert (Hk : iterator v <= Mem.blen (Mem.take (n * typeSize v) b)).
    { unfold Mem.take, Mem.blen in *. rewrite length_firstn. lia. }
    pose proof (blen_nonneg fresh) as Hj.
    rewrite !load_exact by (rewrite ?blen_app; lia).
    f_equal. rewrite !drop_zero. apply take_take_app_any; lia.
Qed.

(** X4: a successful [vector_realloc] to at least the live length keeps a
    well-formed vector well formed, sets the capacity to the requested
    count, keeps the count and keeps the bytes of the live range. *)
Theorem realloc_keeps_live (junk : nat -> byte) (v : vector) (n : Z) :
  WF v -> 0 <= n -> iterator v <= n * typeSize v <= SIZE_MAX ->
  let v' := snd (vector_realloc (Some junk) v n) in
  fst (vector_realloc (Some junk) v n) = true /\
  WF v' /\
  vector_maxsize v' = Some n /\
  vector_count v' = vector_count v /\
  read_at v' 0 (iterator v) = read_at v 0 (iterator v).
Proof. exact (realloc_keeps_live_shared junk v n). Qed.

Lemma realloc_keeps_live_witness :
  let v' := snd (vector_realloc (Some Scenario.junk) Scenario.w2 3) in
  fst (vector_realloc (Some Scenario.junk) Scenario.w2 3) = true /\
  WF v' /\
  vector_maxsize v' = Some 3 /\
  vector_count v' = vector_count Scenario.w2 /\
  read_at v' 0 (iterator Scenario.w2) = read_at Scenario.w2 0 (iterator Scenario.w2).
Proof.
  apply (realloc_keeps_live Scenario.junk Scenario.w2 3).
  - split.
    + unfold Inv. vm_compute. repeat split; discriminate.
    + eexists. split; reflexivity.
  - discriminate.
  - vm_compute. split; discriminate.
Defined.



End Construct.

(** ** The cursor and element access *)

Section Cursor.

Lemma capacity_bounds (v : vector) (k it : Z) :
  Inv v -> vector_maxsize v = Some k -> 0 <= it ->
  length v = k * typeSize v /\
  (it <= k -> it * typeSize v <= length v) /\
  (k < it -> length v < it * typeSize v).
Proof.
  intros HI Hk Hit. destruct (Inv_getters v HI) as (_ & Gm).
  pose proof HI as (Ht & Hl & _ & Hml & _).
  rewrite Gm in Hk. inversion Hk as [Hk'].
  pose proof (mod0_mul _ _ (proj1 Ht) Hml) as El.
  split; [exact El|]. split; intros H.
  - rewrite El. apply Z.mul_le_mono_nonneg_r; lia.
  - rewrite El.
    assert ((length v / typeSize v + 1) * typeSize v <= it * typeSize v)
      by (apply Z.mul_le_mono_nonneg_r; lia). lia.
Qed.

(** X6: [vector_move] sets the count to any position up to the capacity and
    refuses the others: it returns true and makes [vector_count] equal to
    the position when the position is at most the capacity, and returns
    false, leaving the vector as it is, otherwise.  The buffer is not
    looked at. *)
Theorem move_sets_count (v : vector) (it k : Z) :
  Inv v -> 0 <= it -> it * typeSize v <= SIZE_MAX ->
  vector_maxsize v = Some k ->
  vector_move v it =
    (if it <=? k then (true, set_iterator v (it * typeSize v)) else (false, v)) /\
  vector_count (set_iterator v (it * typeSize v)) = Some it.
Proof.
  intros HI Hit Hfit Hk.
  destruct (capacity_bounds v k it HI Hk Hit) as (El & Hin & Hout).
  pose proof (Inv_to_size v HI) as Hts. pose proof HI as (Ht & _).
  assert (H0 : 0 <= it * typeSize v) by (apply Z.mul_nonneg_nonneg; lia).
  assert (Hmul : size_mul it (to_size (typeSize v)) = it * typeSize v)
    by (apply size_mul_exact; lia).
  split.
  - unfold vector_move. rewrite Hmul. unfold addr_of_data_is_null. cbn [orb].
    destruct (Z.ltb_spec (it * typeSize v) 0); [lia|]. cbn [orb].
    rewrite Z.gtb_ltb.
    destruct (Z.leb_spec it k) as [Hle|Hgt].
    + destruct (Z.ltb_spec (length v) (it * typeSize v)); [specialize (Hin Hle); lia|].
      reflexivity.
    + destruct (Z.ltb_spec (length v) (it * typeSize v)); [reflexivity|].
      specialize (Hout Hgt). lia.
  - unfold vector_count, set_iterator. cbn [iterator typeSize].
    rewrite Hts, size_div_pos by lia. f_equal. apply Z.div_mul. lia.
Qed.

Lemma move_sets_count_witness :
  vector_move Scenario.w0 3 =
    (if 3 <=? 4 then (true, set_iterator Scenario.w0 (3 * 4)) else (false, Scenario.w0)) /\
  vector_count (set_iterator Scenario.w0 (3 * 4)) = Some 3.
Proof.
  apply (move_sets_count Scenario.w0 3 4).
  - unfold Inv. vm_compute. repeat split; discriminate.
  - discriminate.
  - vm_compute. discriminate.
  - reflexivity.
Defined.

(** X17: [vector_get] on an allocated vector returns the address of the slot
    for every index up to and including the count, and [NULL] for the
    indices above it: the slot just after the last live element is handed
    out as well. *)
Theorem get_in_range (v : vector) (index c : Z) (b : Mem.block) :
  Inv v -> data v = Some b ->
  vector_count v = Some c -> 0 <= index -> index * typeSize v <= SIZE_MAX ->
  vector_get v index = if index <=? c then Some (index * typeSize v) else None.
Proof.
  intros HI Hd Hc Hidx Hfit.
  destruct (count_bounds v c index HI Hc Hidx Hfit) as (Hbi & Ei & Hc0 & Hlt & Hge).
  pose proof HI as (Ht & _).
  assert (H0 : 0 <= index * typeSize v) by (apply Z.mul_nonneg_nonneg; lia).
  unfold vector_get. rewrite Hbi, Hd.
  unfold addr_of_data_is_null. cbn [orb].
  destruct (Z.ltb_spec (index * typeSize v) 0); [lia|]. cbn [orb].
  rewrite Z.gtb_ltb.
  destruct (Z.leb_spec index c) as [Hle|Hgt].
  - destruct (Z.ltb_spec (iterator v) (index * typeSize v)); [|reflexivity].
    assert (index * typeSize v <= c * typeSize v)
      by (apply Z.mul_le_mono_nonneg_r; lia). lia.
  - destruct (Z.ltb_spec (iterator v) (index * typeSize v)); [reflexivity|].
    assert ((c + 1) * typeSize v <= index * typeSize v)
      by (apply Z.mul_le_mono_nonneg_r; lia). lia.
Qed.

Lemma get_in_range_witness :
  vector_get Scenario.w2 2 = (if 2 <=? 2 then Some (2 * 4) else None).
Proof.
  apply (get_in_range Scenario.w2 2 2
           (Scenario.le32 x0a ++ Scenario.le32 x14 ++ repeat x00 8)).
  - unfold Inv. vm_compute. repeat split; discriminate.
  - reflexivity.
  - reflexivity.
  - discriminate.
  - vm_compute. discriminate.
Defined.

End Cursor.

(** ** Clearing *)

Section Clear.

Lemma load_app_skip (p q : Mem.block) (o n : Z) :
  0 <= o -> Mem.load (p ++ q) (Mem.blen p + o) n = Mem.load q o n.
Proof.
  intros Ho. unfold Mem.load. pose proof (blen_nonneg p) as Hp.
  rewrite blen_app, drop_app_more by exact Ho.
  destruct (Z.leb_spec 0 (Mem.blen p + o)); [|lia].
  destruct (Z.leb_spec 0 o); [|lia]. cbn [andb].
  destruct (Z.leb_spec 0 n); cbn [andb]; [|reflexivity].
  destruct (Z.leb_spec (Mem.blen p + o + n) (Mem.blen p + Mem.blen q));
    destruct (Z.leb_spec (o + n) (Mem.blen q)); try lia; reflexivity.
Qed.

Lemma slots_succ (m : nat) (elt : list byte) : slots (S m) elt = elt ++ slots m elt.
Proof. reflexivity. Qed.

Lemma blen_slots (m : nat) (elt : list byte) :
  Mem.blen (slots m elt) = Z.of_nat m * Mem.blen elt.
Proof.
  induction m as [|m IH].
  - reflexivity.
  - rewrite slots_succ, blen_app, IH. lia.
Qed.

(** Each slot of a filled block reads back as the element. *)
Lemma load_slots (m : nat) (elt : list byte) :
  forall j : Z, 0 <= j < Z.of_nat m ->
    Mem.load (slots m elt) (j * Mem.blen elt) (Mem.blen elt) = Some elt.
Proof.
  induction m as [|m IH]; intros j Hj; [lia|].
  rewrite slots_succ.
  destruct (Z.eq_dec j 0) as [->|Hnz].
  - rewrite Z.mul_0_l. exact (load_middle [] elt (slots m elt)).
  - replace (j * Mem.blen elt) with (Mem.blen elt + (j - 1) * Mem.blen elt) by lia.
    pose proof (blen_nonneg elt).
    rewrite load_app_skip by (apply Z.mul_nonneg_nonneg; lia).
    apply IH. lia.
Qed.

Lemma set_data_same (v : vector) (d : option Mem.block) :
  data v = d -> set_data v d = v.
Proof. destruct v. cbn. intros ->. reflexivity. Qed.

(** The loop of [vector_clear], from a position that is a whole number of
    elements before the end of the block. *)
Lemma clear_loop_exact (src : list byte) (m : nat) :
  forall (fuel : nat) (v : vector) (pre rest : Mem.block) (ok : bool),
    0 < typeSize v <= INT32_MAX -> typeSize v <= Mem.blen src ->
    data v = Some (pre ++ rest) ->
    Mem.blen rest = Z.of_nat m * typeSize v ->
    Mem.blen pre + Mem.blen rest = length v -> length v <= SIZE_MAX ->
    (m < fuel)%nat ->
    clear_loop fuel v src (Mem.blen pre) ok =
    Some (set_data v (Some (pre ++ slots m (Mem.take (typeSize v) src))), ok).
Proof.
  induction m as [|m IH]; intros fuel v pre rest ok Ht Hsrc Hd Hrest Hlen Hmax Hfuel;
    (destruct fuel as [|fuel]; [lia|]); cbn [clear_loop].
  - destruct (Z.ltb_spec (Mem.blen pre) (length v)); [lia|].
    assert (rest = []) by (destruct rest; [reflexivity | cbn in Hrest; lia]).
    subst rest. cbn [slots repeat concat]. f_equal. f_equal.
    symmetry. apply set_data_same. exact Hd.
  - pose proof (blen_nonneg pre) as Hp.
    destruct (Z.ltb_spec (Mem.blen pre) (length v)); [|nia].
    rewrite (to_size_pos _ Ht).
    unfold on_buffer. rewrite Hd.
    rewrite memcpy_exact by (rewrite ?blen_app; nia).
    rewrite take_app_exact, drop_app_more by lia.
    set (elt := Mem.take (typeSize v) src).
    assert (He : Mem.blen elt = typeSize v) by (apply blen_take; lia).
    assert (Hi : size_add (Mem.blen pre) (typeSize v) = Mem.blen (pre ++ elt)).
    { rewrite blen_app, He. unfold size_add. apply wrap_small. nia. }
    rewrite Hi.
    rewrite (IH fuel (set_data v (Some (pre ++ elt ++ Mem.drop (typeSize v) rest)))
               (pre ++ elt) (Mem.drop (typeSize v) rest) ok);
      cbn [typeSize length data set_data]; try assumption; try lia.
    + fold elt. rewrite slots_succ, <- app_assoc. reflexivity.
    + rewrite <- app_assoc. reflexivity.
    + rewrite blen_drop by nia. lia.
    + rewrite blen_app, He, blen_drop by nia. lia.
Qed.

(** X7: [vector_clear] on a well-formed vector of positive capacity, with a
    source of at least [typeSize] bytes: the loop ends after one pass per
    slot, the call returns true without leaving the block, the count is 0,
    the capacity is kept, and every slot of the capacity reads back as the
    element. *)
Theorem clear_fills (fuel : nat) (v : vector) (src : list byte) (k : Z) :
  WF v -> 0 < length v -> typeSize v <= Mem.blen src ->
  vector_maxsize v = Some k -> (Z.to_nat k < fuel)%nat ->
  vector_clear fuel v src =
    Some (mkoutcome true
            (mkvector (typeSize v) (length v) 0
               (Some (slots (Z.to_nat k) (Mem.take (typeSize v) src))))
            true) /\
  forall j : Z, 0 <= j < k ->
    Mem.load (slots (Z.to_nat k) (Mem.take (typeSize v) src))
             (j * typeSize v) (typeSize v)
    = Some (Mem.take (typeSize v) src).
Proof.
  intros (HI & b & Hd & Hb) Hpos Hsrc Hk Hfuel.
  destruct (capacity_bounds v k 0 HI Hk (Z.le_refl 0)) as (El & _ & _).
  pose proof HI as (Ht & Hl & _). unfold is_size in Hl.
  assert (Hk0 : 0 <= k) by nia.
  assert (He : Mem.blen (Mem.take (typeSize v) src) = typeSize v)
    by (apply blen_take; lia).
  split.
  - unfold vector_clear. unfold addr_of_data_is_null. cbn [orb].
    destruct (Z.leb_spec (length v) 0); [lia|].
    assert (H1 : Mem.blen b = Z.of_nat (Z.to_nat k) * typeSize v)
      by (rewrite Z2Nat.id by lia; lia).
    assert (H2 : Mem.blen [] + Mem.blen b = length v)
      by (change (Mem.blen []) with 0; lia).
    assert (H3 : length v <= SIZE_MAX) by (unfold SIZE_MAX; lia).
    pose proof (clear_loop_exact src (Z.to_nat k) fuel v [] b true
                  Ht Hsrc Hd H1 H2 H3 Hfuel) as E.
    change (Mem.blen []) with 0 in E. rewrite E. reflexivity.
  - intros j Hj.
    pose proof (load_slots (Z.to_nat k) (Mem.take (typeSize v) src) j) as L.
    rewrite He in L. apply L. lia.
Qed.

Lemma clear_fills_witness :
  vector_clear 5 Scenario.w4 (Scenario.le32 x07) =
    Some (mkoutcome true
            (mkvector 4 16 0 (Some (slots (Z.to_nat 4) (Mem.take 4 (Scenario.le32 x07)))))
            true) /\
  forall j : Z, 0 <= j < 4 ->
    Mem.load (slots (Z.to_nat 4) (Mem.take 4 (Scenario.le32 x07))) (j * 4) 4
    = Some (Mem.take 4 (Scenario.le32 x07)).
Proof.
  apply (clear_fills 5 Scenario.w4 (Scenario.le32 x07) 4).
  - split.
    + unfold Inv. vm_compute. repeat split; discriminate.
    + eexists. split; reflexivity.
  - reflexivity.
  - vm_compute. discriminate.
  - reflexivity.
  - vm_compute. repeat constructor.
Defined.

End Clear.

(** ** The string copy *)

Section CopyString.





End CopyString.

(** ** Release *)

Section Release.

(** X19: a vector is released once: after [vector_free] on any vector, a
    second [vector_free] returns false and [vector_remove] returns false,
    both leaving the vector as the first call left it. *)
Theorem free_once (v : vector) (index : Z) :
  match vector_free (Some v) with
  | (_, Some u) =>
      data u = None /\
      vector_free (Some u) = (false, Some u) /\
      vector_remove u index = mkoutcome false u true
  | (_, None) => False
  end.
Proof.
  unfold vector_free at 1. destruct (data v) as [b|] eqn:D.
  - repeat split.
  - split; [exact D|]. split.
    + unfold vector_free. rewrite D. reflexivity.
    + unfold vector_remove. rewrite D. reflexivity.
Qed.

End Release.

(** ** Memory safety along sequences of calls *)

Section Safety.





Lemma remove_rejects (v : vector) (index : Z) :
  iterator v < size_mul index (to_size (typeSize v)) ->
  vector_remove v index = mkoutcome false v true.
Proof.
  intros H. unfold vector_remove.
  rewrite (Z.gtb_ltb _ (iterator v)).
  destruct (Z.ltb_spec (iterator v) (size_mul index (to_size (typeSize v)))); [|lia].
  rewrite orb_true_r. reflexivity.
Qed.




End Safety.

(** ** Two more facts about construction and failed growth *)

Section Closing.

(** X2: the default constructor reserves 32 elements: with a positive
    element size and an allocator that succeeds, [vector_calloc] with
    [reserve] set gives a well-formed empty vector of capacity
    [VECTOR_DEFAULT_LENGTH], and without [reserve] an unallocated vector of
    capacity 0. *)
Theorem calloc_default_capacity (ts : Z) :
  0 < ts <= INT32_MAX ->
  WF (vector_calloc true ts true) /\
  vector_count (vector_calloc true ts true) = Some 0 /\
  vector_maxsize (vector_calloc true ts true) = Some 32 /\
  data (vector_calloc true ts false) = None /\
  vector_maxsize (vector_calloc true ts false) = Some 0.
Proof.
  intros Hts.
  assert (E : vector_calloc true ts true = vector_calloc2 true ts 32 true)
    by reflexivity.
  assert (Hfit : 32 * ts <= SIZE_MAX).
  { unfold INT32_MAX, SIZE_MAX, MODULUS, SIZE_BITS in *. lia. }
  destruct (calloc2_reserved_shared ts 32 Hts ltac:(lia) Hfit) as (W & C & M & _).
  rewrite E. split; [exact W|]. split; [exact C|]. split; [exact M|].
  rewrite calloc_unreserved. split; [reflexivity|].
  unfold vector_maxsize. cbn [length typeSize].
  rewrite (to_size_pos ts Hts), size_div_pos by lia. reflexivity.
Qed.

Lemma calloc_default_capacity_witness :
  WF (vector_calloc true 4 true) /\
  vector_count (vector_calloc true 4 true) = Some 0 /\
  vector_maxsize (vector_calloc true 4 true) = Some 32 /\
  data (vector_calloc true 4 false) = None /\
  vector_maxsize (vector_calloc true 4 false) = Some 0.
Proof.
  apply (calloc_default_capacity 4).
  split; [reflexivity | discriminate].
Defined.

(** X12: a failed growth is a write outside the buffer: on a full vector
    whose block is exactly [length] bytes, when the reallocation inside
    [vector_insert] fails, every insert that returns true has copied outside
    the block. *)
Theorem failed_growth_writes_outside (v : vector) (src : list byte) (index : Z)
        (b : Mem.block) :
  vector_ok v -> 0 < typeSize v ->
  iterator v = length v -> data v = Some b -> Mem.blen b = length v ->
  ret (vector_insert None v src index) = true ->
  in_bounds (vector_insert None v src index) = false /\
  length (vec (vector_insert None v src index)) = length v /\
  iterator (vec (vector_insert None v src index))
    = size_add (iterator v) (to_size (typeSize v)).
Proof.
  intros Hok Hpos Hfull Hd Hb Hret.
  split; [exact (failed_growth_append_overruns v src index b Hok Hpos Hfull Hd Hb Hret)|].
  assert (Hg : grown None v = v).
  { unfold grown. destruct (iterator v =? length v); reflexivity. }
  pose proof (insert_length None v src index) as L. rewrite Hg in L.
  split; [exact L|].
  set (bi := size_mul index (to_size (typeSize v))).
  destruct (Z.le_gt_cases bi (iterator v)) as [Hle|Hgt].
  - assert (H0 : 0 <= bi) by apply (wrap_range (index * to_size (typeSize v))).
    destruct (insert_accepts None v src index (conj H0 Hle)) as (_ & _ & _ & R4).
    exact R4.
  - rewrite insert_rejects in Hret by (fold bi; lia). discriminate.
Qed.

Lemma failed_growth_writes_outside_witness :
  in_bounds (vector_insert None Scenario.w4 (Scenario.le32 x32) 4) = false /\
  length (vec (vector_insert None Scenario.w4 (Scenario.le32 x32) 4)) = length Scenario.w4 /\
  iterator (vec (vector_insert None Scenario.w4 (Scenario.le32 x32) 4))
    = size_add (iterator Scenario.w4) (to_size (typeSize Scenario.w4)).
Proof.
  apply (failed_growth_writes_outside Scenario.w4 (Scenario.le32 x32) 4
           (Scenario.le32 x0a ++ Scenario.le32 x14 ++ Scenario.le32 x1e
            ++ Scenario.le32 x28)).
  - unfold vector_ok. vm_compute. repeat split; discriminate.
  - reflexivity.
  - reflexivity.
  - reflexivity.
  - reflexivity.
  - reflexivity.
Defined.

(** X8: an index above the count is refused without any change: on a
    vector that is not full, for an index above the count whose byte
    offset does not overflow, [vector_insert], [vector_remove] and
    [vector_replace] return false with the vector exactly as it was, and
    [vector_get] returns [NULL]. *)
Theorem out_of_range_refused (a : Mem.answer) (v : vector) (src : list byte)
        (index c : Z) :
  Inv v -> iterator v < length v ->
  vector_count v = Some c -> c < index -> index * typeSize v <= SIZE_MAX ->
  vector_insert a v src index = mkoutcome false v true /\
  vector_remove v index = mkoutcome false v true /\
  vector_replace v src index = mkoutcome false v true /\
  vector_get v index = None.
Proof.
  intros HI Hroom Hc Hidx Hfit.
  pose proof HI as (Ht & _).
  assert (Hc0 : 0 <= index).
  { assert (H00 : 0 * typeSize v <= SIZE_MAX) by (rewrite Z.mul_0_l; discriminate).
    destruct (count_bounds v c 0 HI Hc (Z.le_refl 0) H00) as (_ & _ & H0 & _). lia. }
  destruct (count_bounds v c index HI Hc Hc0 Hfit) as (Hbi & Ei & _ & _ & _).
  assert (Hgt : iterator v < index * typeSize v).
  { assert ((c + 1) * typeSize v <= index * typeSize v)
      by (apply Z.mul_le_mono_nonneg_r; lia). lia. }
  assert (Hg : grown a v = v).
  { unfold grown. destruct (Z.eqb_spec (iterator v) (length v)); [lia|reflexivity]. }
  split; [|split; [|split]].
  - rewrite insert_rejects by (rewrite Hbi; exact Hgt). rewrite Hg. reflexivity.
  - apply remove_rejects. rewrite Hbi. exact Hgt.
  - unfold vector_replace. rewrite Hbi, Z.geb_leb.
    destruct (Z.leb_spec (iterator v) (index * typeSize v)); [|lia].
    rewrite orb_true_r. reflexivity.
  - unfold vector_get. rewrite Hbi, Z.gtb_ltb.
    destruct (Z.ltb_spec (iterator v) (index * typeSize v)); [|lia].
    rewrite orb_true_r. reflexivity.
Qed.

Lemma out_of_range_refused_witness :
  vector_insert None Scenario.w2 (Scenario.le32 x63) 3 = mkoutcome false Scenario.w2 true /\
  vector_remove Scenario.w2 3 = mkoutcome false Scenario.w2 true /\
  vector_replace Scenario.w2 (Scenario.le32 x63) 3 = mkoutcome false Scenario.w2 true /\
  vector_get Scenario.w2 3 = None.
Proof.
  apply (out_of_range_refused None Scenario.w2 (Scenario.le32 x63) 3 2).
  - unfold Inv. vm_compute. repeat split; discriminate.
  - reflexivity.
  - reflexivity.
  - reflexivity.
  - vm_compute. discriminate.
Defined.

End Closing.
